(** * Tail append on a singly linked list: indirect and direct pointers

    A shallow embedding of [indirect-pointer-example.c].  The C heap is a
    finite map from block addresses to [list_entry_t] records, a
    [list_entry_t*] is an optional address ([None] is [NULL]) and a
    [list_entry_t**] is a slot: either the caller's head variable or the
    [next] field of a block.  Loops carry fuel, and an access to a block
    that is not live is a fault. *)

From stdpp Require Import base option list gmap strings.
From Stdlib Require Import ZArith Lia Ascii String.
Abbreviation length := List.length.

Local Open Scope Z_scope.

(** ** Results of running C code *)

(** [Done a]: the code returned [a].  [Fault]: the code dereferenced [NULL]
    or a block that is not live (undefined behaviour in C).  [OutOfFuel]: the
    fuel given to a loop ran out before the loop condition became false. *)
Inductive outcome (A : Type) : Type :=
  | Done (a : A)
  | Fault
  | OutOfFuel.
Arguments Done {A} a.
Arguments Fault {A}.
Arguments OutOfFuel {A}.

#[global] Instance outcome_ret : MRet outcome := fun _ a => Done a.
#[global] Instance outcome_bind : MBind outcome := fun _ _ f x =>
  match x with
  | Done a => f a
  | Fault => Fault
  | OutOfFuel => OutOfFuel
  end.

(** ** Data model *)

(** Addresses of heap blocks, and [list_entry_t*]. *)
Definition loc : Type := positive.
Definition ptr : Type := option loc.
Definition NULL : ptr := None.

(** [struct list_entry]. *)
Record list_entry_t : Type := ListEntry { value : Z; next : ptr }.

(** A [list_entry_t**]: the address of the caller's head variable
    ([&list_unordered] in [main]) or the address [&(l->next)] of the [next]
    field of block [l]. *)
Inductive slot : Type :=
  | Head
  | Next (l : loc).

#[global] Instance slot_eq_dec : EqDecision slot.
Proof. solve_decision. Defined.

(** One line of [main]'s output: a literal text, or the per-node line
    ["Iteration: %d, %p: Value: %d, Next: %p\n"] with its four arguments. *)
Inductive output : Type :=
  | Text (s : string)
  | NodeLine (iteration : nat) (node : loc) (val : Z) (succ : ptr).

(** The state the program runs on: the head variable, the heap of live
    blocks, the number of [malloc] calls made so far and what was printed. *)
Record state : Type := State {
  head : ptr;
  heap : gmap loc list_entry_t;
  mallocs : nat;
  stdout : list output
}.

Definition set_head (p : ptr) (m : state) : state :=
  State p (heap m) (mallocs m) (stdout m).
Definition set_heap (h : gmap loc list_entry_t) (m : state) : state :=
  State (head m) h (mallocs m) (stdout m).
Definition print (o : output) (m : state) : state :=
  State (head m) (heap m) (mallocs m) (stdout m ++ [o]).

(** [*s] for a slot [s]. *)
Definition load (m : state) (s : slot) : outcome ptr :=
  match s with
  | Head => Done (head m)
  | Next l =>
      match heap m !! l with
      | Some e => Done (next e)
      | None => Fault
      end
  end.

(** [*s = p] for a slot [s]. *)
Definition store (m : state) (s : slot) (p : ptr) : outcome state :=
  match s with
  | Head => Done (set_head p m)
  | Next l =>
      match heap m !! l with
      | Some e => Done (set_heap (<[l := ListEntry (value e) p]> (heap m)) m)
      | None => Fault
      end
  end.

(** The append strategy the function pointer [append] selects. *)
Inductive strategy : Type :=
  | Indirect
  | Direct.

Section Program.

(** The C library.  [malloc n h] is what the [n]-th call of [malloc] returns
    when the live blocks are those of [h]: a block that is not live, or
    [None] for [NULL].  [atoi] converts the iteration-count argument, and
    [char_signed] tells whether plain [char] is a signed type. *)
Variable malloc : nat → gmap loc list_entry_t → option loc.
Variable atoi : string → Z.
Variable char_signed : bool.

(** Lines 43-45 and 76-78:
    [new = malloc(1 * sizeof(list_entry_t)); new->value = value;
    new->next = NULL;] -- the writes through [new] fault when [malloc]
    returned [NULL]. *)
Definition new_entry (v : Z) (m : state) : outcome (loc * state) :=
  match malloc (mallocs m) (heap m) with
  | Some new =>
      Done (new, State (head m) (<[new := ListEntry v NULL]> (heap m))
                       (S (mallocs m)) (stdout m))
  | None => Fault
  end.

(** Lines 47-50:
    [while (!( *indirect == NULL)) indirect = &(( *indirect)->next);]
    returns the final [indirect] and the number of times the body ran.
    Taking the address [&(( *indirect)->next)] reads nothing; the block is
    read by the next test of the condition. *)
Fixpoint indirect_loop (fuel : nat) (m : state) (indirect : slot)
  : outcome (slot * nat) :=
  match fuel with
  | O => OutOfFuel
  | S fuel' =>
      p ← load m indirect ;
      match p with
      | None => Done (indirect, O)
      | Some l =>
          '(s, n) ← indirect_loop fuel' m (Next l) ;
          Done (s, S n)
      end
  end.

(** Lines 36-53. *)
Definition append_indirect (fuel : nat) (v : Z) (indirect_start : slot)
  (m : state) : outcome state :=
  '(new, m1) ← new_entry v m ;
  '(indirect, _) ← indirect_loop fuel m1 indirect_start ;
  store m1 indirect (Some new).

(** Lines 80-84:
    [while (!(direct == NULL)) { prev = direct; direct = direct->next; }]
    returns the final [prev] and the number of times the body ran. *)
Fixpoint direct_loop (fuel : nat) (m : state) (direct prev : ptr)
  : outcome (ptr * nat) :=
  match fuel with
  | O => OutOfFuel
  | S fuel' =>
      match direct with
      | None => Done (prev, O)
      | Some l =>
          match heap m !! l with
          | Some e =>
              '(p, n) ← direct_loop fuel' m (next e) (Some l) ;
              Done (p, S n)
          | None => Fault
          end
      end
  end.

(** Lines 67-93: [direct = *direct_start; prev = NULL;], the new entry, the
    loop, and the branch on [prev == NULL]. *)
Definition append_direct (fuel : nat) (v : Z) (direct_start : slot)
  (m : state) : outcome state :=
  direct ← load m direct_start ;
  '(new, m1) ← new_entry v m ;
  '(prev, _) ← direct_loop fuel m1 direct NULL ;
  match prev with
  | None => store m1 direct_start (Some new)
  | Some l => store m1 (Next l) (Some new)
  end.

(** Line 99, the function pointer [append]: a call goes to the function it
    holds. *)
Definition append (st : strategy) : nat → Z → slot → state → outcome state :=
  match st with
  | Indirect => append_indirect
  | Direct => append_direct
  end.

(** Appending the values [vs] one after the other, as the inner [for] loop
    of [main] does with the values it reads from its argument. *)
Fixpoint append_all (st : strategy) (fuel : nat) (vs : list Z) (start : slot)
  (m : state) : outcome state :=
  match vs with
  | [] => Done m
  | v :: vs' =>
      m' ← append st fuel v start m ;
      append_all st fuel vs' start m'
  end.

(** The value of a plain [char] as an [int]. *)
Definition char_val (c : ascii) : Z :=
  let n := Z.of_N (N_of_ascii c) in
  if char_signed && (128 <=? n) then n - 256 else n.

(** [c - '0']. *)
Definition digit_of (c : ascii) : Z := char_val c - char_val "0"%char.

(** [strlen]: the characters before the first NUL. *)
Fixpoint strlen (s : string) : nat :=
  match s with
  | EmptyString => O
  | String c s' => if Ascii.eqb c zero then O else S (strlen s')
  end.

(** Lines 146-149:
    [for (index = 0; index < strlen(argv[1]); index ++)
      append(argv[1][index] - '0', &list_unordered);]
    with [n] the number of indices still to visit. *)
Fixpoint build_loop (st : strategy) (fuel : nat) (n index : nat) (s : string)
  (m : state) : outcome state :=
  match n with
  | O => Done m
  | S n' =>
      match String.get index s with
      | Some c =>
          m' ← append st fuel (digit_of c) Head m ;
          build_loop st fuel n' (S index) s m'
      | None => Fault
      end
  end.

(** Lines 153-163:
    [while (!(list == NULL)) { if (output) printf(...); prev = list;
      list = list->next; free(prev); }] *)
Fixpoint consume_loop (fuel : nat) (output : bool) (iteration : nat)
  (list : ptr) (m : state) : outcome state :=
  match fuel with
  | O => OutOfFuel
  | S fuel' =>
      match list with
      | None => Done m
      | Some l =>
          match heap m !! l with
          | Some e =>
              let m1 :=
                if output
                then print (NodeLine iteration l (value e) (next e)) m
                else m in
              consume_loop fuel' output iteration (next e)
                (set_heap (delete l (heap m1)) m1)
          | None => Fault
          end
      end
  end.

(** Lines 144-163, the body of the outer [for] loop of [main]:
    [list_unordered = NULL;], the inner loop, [list = list_unordered;] and
    the loop that visits and frees. *)
Definition cycle (st : strategy) (fuel : nat) (output : bool)
  (iteration : nat) (s : string) (m : state) : outcome state :=
  let m0 := set_head NULL m in
  m1 ← build_loop st fuel (strlen s) O s m0 ;
  consume_loop fuel output iteration (head m1) m1.

(** Line 142: [for (iteration = 0; iteration < num_itr; iteration ++)] with
    [n] the number of iterations still to run. *)
Fixpoint main_loop (st : strategy) (fuel : nat) (output : bool)
  (n iteration : nat) (s : string) (m : state) : outcome state :=
  match n with
  | O => Done m
  | S n' =>
      m' ← cycle st fuel output iteration s m ;
      main_loop st fuel output n' (S iteration) s m'
  end.

Definition nl : string := String "010"%char EmptyString.

Definition usage : list output :=
  [ Text ("Usage:" +:+ nl);
    Text "First argument: String to insert into the linked list";
    Text "Second argument: Number of test iterations to run";
    Text "Third argument: If exists, silence output" ].

Definition bad_count : output :=
  Text "Number of iterations must be an integer greater than 0".

Definition banner (st : strategy) : output :=
  match st with
  | Indirect => Text ("Using indirect append" +:+ nl)
  | Direct => Text ("Using direct append" +:+ nl)
  end.

(** Lines 104-167: [main], with [argc] the length of [argv] and [st] the
    value of the global [append].  The result holds the value [main]
    returns. *)
Definition main (st : strategy) (fuel : nat) (argv : list string)
  (m : state) : outcome (Z * state) :=
  let argc := Z.of_nat (List.length argv) in
  if argc <? 3 then
    Done (-1, State (head m) (heap m) (mallocs m) (stdout m ++ usage))
  else
    match argv !! 1%nat, argv !! 2%nat with
    | Some arg1, Some arg2 =>
        let num_itr := atoi arg2 in
        if num_itr <? 1 then Done (-1, print bad_count m)
        else
          let output := negb (3 <? argc) in
          let m1 := if output then print (banner st) m else m in
          m2 ← main_loop st fuel output (Z.to_nat num_itr) O arg1 m1 ;
          Done (0, m2)
    | _, _ => Fault
    end.

End Program.

(** The global [append] is initialised to [append_indirect] and never
    assigned. *)
Definition append_initial : strategy := Indirect.

(** An allocator that never fails: the least address above the live ones. *)
Definition malloc_fresh : nat → gmap loc list_entry_t → option loc :=
  fun _ h => Some (fresh (dom h)).

(** A decimal [atoi] for unsigned digit strings (enough for examples). *)
Fixpoint atoi_digits (acc : Z) (s : string) : Z :=
  match s with
  | EmptyString => acc
  | String c s' =>
      let d := Z.of_N (N_of_ascii c) - 48 in
      if (0 <=? d) && (d <=? 9) then atoi_digits (10 * acc + d) s' else acc
  end.
Definition atoi_dec (s : string) : Z :=
  match s with
  | String "-"%char s' => - atoi_digits 0 s'
  | _ => atoi_digits 0 s
  end.

Definition empty_state : state := State NULL ∅ O [].

(** ** Lists in the heap *)

(** [is_list h p ns]: from [p], following [next], the heap [h] holds exactly
    the blocks [ns] (address and value, in order) and then [NULL]. *)
Fixpoint is_list (h : gmap loc list_entry_t) (p : ptr) (ns : list (loc * Z))
  : Prop :=
  match ns with
  | [] => p = NULL
  | (l, v) :: ns' =>
      p = Some l ∧ ∃ nx, h !! l = Some (ListEntry v nx) ∧ is_list h nx ns'
  end.

#[global] Instance is_list_dec h p ns : Decision (is_list h p ns).
Proof.
  revert p. induction ns as [|[l v] ns IH]; intros p; simpl.
  - apply _.
  - destruct (decide (p = Some l)) as [Hp|Hp]; [|right; by intros [? _]].
    destruct (h !! l) as [[v' nx]|] eqn:E;
      [|right; by intros (_ & nx & ? & _)].
    destruct (decide (v' = v)) as [->|Hv];
      [|right; intros (_ & nx' & H & _); congruence].
    destruct (IH nx) as [Hl|Hl]; [left; eauto|right].
    intros (_ & nx' & H & Hl'). injection H as <-. done.
Defined.

(** The slot that holds the [NULL] ending the list [ns] hanging at [start]. *)
Definition tail_slot (start : slot) (ns : list (loc * Z)) : slot :=
  match last ns with
  | Some (l, _) => Next l
  | None => start
  end.

(** The last block of the list, as the [prev] of [append_direct] sees it. *)
Definition tail_block (prev : ptr) (ns : list (loc * Z)) : ptr :=
  match last ns with
  | Some (l, _) => Some l
  | None => prev
  end.

(** The characters [strlen] counts. *)
Fixpoint c_chars (s : string) : list ascii :=
  match s with
  | EmptyString => []
  | String c s' => if Ascii.eqb c zero then [] else c :: c_chars s'
  end.

(** [free] of each block of [ls], first to last. *)
Definition free_all (ls : list loc) (h : gmap loc list_entry_t)
  : gmap loc list_entry_t :=
  foldl (fun h l => delete l h) h ls.

(** The address of the first block of a list. *)
Definition first_block (ns : list (loc * Z)) : ptr :=
  match ns with
  | [] => NULL
  | (l, _) :: _ => Some l
  end.

(** The lines [main] prints for a list in iteration [it]. *)
Fixpoint node_lines (it : nat) (ns : list (loc * Z)) : list output :=
  match ns with
  | [] => []
  | (l, v) :: ns' => NodeLine it l v (first_block ns') :: node_lines it ns'
  end.

(** The value column of the per-node lines of an output. *)
Fixpoint line_values (out : list output) : list Z :=
  match out with
  | [] => []
  | Text _ :: out' => line_values out'
  | NodeLine _ _ v _ :: out' => v :: line_values out'
  end.

(** The state right after [new_entry] returned block [new]. *)
Definition with_entry (new : loc) (v : Z) (m : state) : state :=
  State (head m) (<[new := ListEntry v NULL]> (heap m)) (S (mallocs m))
        (stdout m).

(** ** Assumptions on the allocator *)

(** [malloc] never returns a block that is live. *)
Definition returns_unused (malloc : nat → gmap loc list_entry_t → option loc)
  : Prop :=
  ∀ n h l, malloc n h = Some l → h !! l = None.

(** [malloc] never returns [NULL]. *)
Definition never_null (malloc : nat → gmap loc list_entry_t → option loc)
  : Prop :=
  ∀ n h, is_Some (malloc n h).

(** What one append of [v] does to a state [m] whose slot [start] holds the
    list [ns], when [malloc] returned [new]: [m'] is [m] with the new block
    linked into the slot that ended the list. *)
Record appended (start : slot) (ns : list (loc * Z)) (new : loc) (v : Z)
  (m m' : state) : Prop := Appended {
  app_unused : heap m !! new = None;
  app_ended : load m (tail_slot start ns) = Done NULL;
  app_entry : heap m' !! new = Some (ListEntry v NULL);
  app_list : ∃ p, load m start = Done p ∧ is_list (heap m) p ns ∧
    ∃ p', load m' start = Done p' ∧ is_list (heap m') p' (ns ++ [(new, v)]);
  app_others : ∀ l, l ≠ new → tail_slot start ns ≠ Next l →
    heap m' !! l = heap m !! l;
  app_tail : ∀ l, tail_slot start ns = Next l →
    ∃ u, heap m !! l = Some (ListEntry u NULL) ∧
         heap m' !! l = Some (ListEntry u (Some new));
  app_head : head m' = match tail_slot start ns with
                       | Head => Some new
                       | Next _ => head m
                       end;
  app_mallocs : mallocs m' = S (mallocs m);
  app_stdout : stdout m' = stdout m
}.

(** What appending the values [vs] does to a state [m] whose slot [start]
    holds the list [ns]: [ns'] are the blocks that were added. *)
Record built (start : slot) (ns ns' : list (loc * Z)) (vs : list Z)
  (m m' : state) : Prop := Built {
  blt_values : ns'.*2 = vs;
  blt_list : ∃ p', load m' start = Done p' ∧ is_list (heap m') p' (ns ++ ns');
  blt_unused : ∀ l, l ∈ ns'.*1 → heap m !! l = None;
  blt_others : ∀ l, l ∉ ns'.*1 → tail_slot start ns ≠ Next l →
    heap m' !! l = heap m !! l;
  blt_head : tail_slot start ns ≠ Head → head m' = head m;
  blt_mallocs : mallocs m' = (mallocs m + length vs)%nat;
  blt_stdout : stdout m' = stdout m
}.

(** ** The chain invariant of the data model *)

(** [points_to h l l']: the [next] field of the live block [l] refers to
    [l']. *)
Definition points_to (h : gmap loc list_entry_t) (l l' : loc) : Prop :=
  ∃ e, h !! l = Some e ∧ next e = Some l'.

(** The nodes of the list: what the head refers to and what is reached from
    it through [next] fields. *)
Definition in_chain (m : state) (l : loc) : Prop :=
  ∃ l0, head m = Some l0 ∧ rtc (points_to (heap m)) l0 l.

(** The invariant as the data model words it: every reference of the list
    is to a node; no node is reachable from itself through [next]; no node
    is the target of two [next] fields; no node is the target of the head
    and of a [next] field. *)
Record chain_invariant (m : state) : Prop := ChainInvariant {
  chain_nodes : ∀ l, in_chain m l → is_Some (heap m !! l);
  chain_acyclic : ∀ l, in_chain m l → ¬ tc (points_to (heap m)) l l;
  chain_one_next : ∀ l1 l2 l, in_chain m l1 → in_chain m l2 →
    points_to (heap m) l1 l → points_to (heap m) l2 l → l1 = l2;
  chain_head_or_next : ∀ l1 l, in_chain m l1 → head m = Some l →
    ¬ points_to (heap m) l1 l
}.

(** ** The direct algorithm as the design words it *)

(** The walk of the design: while [current] denotes a node, [previous]
    becomes [current] and [current] becomes [current.next].
    [spec_walk m current previous last] holds when the walk from
    ([current], [previous]) ends, [current] denoting no node, with
    [previous] equal to [last]. *)
Inductive spec_walk (m : state) : ptr → ptr → ptr → Prop :=
  | walk_stop previous :
      spec_walk m NULL previous previous
  | walk_advance l e previous last :
      heap m !! l = Some e →
      spec_walk m (next e) (Some l) last →
      spec_walk m (Some l) previous last.

(** The algorithm of the design: read the head slot into [current], start
    with [previous] none, walk to the end, then write the reference of the
    new node into the head slot when [previous] is still none and into
    [previous.next] otherwise. *)
Inductive append_direct_spec (malloc : nat → gmap loc list_entry_t → option loc)
  (v : Z) (head_slot : slot) (m : state) : state → Prop :=
  | spec_write_head current new m1 m' :
      load m head_slot = Done current →
      new_entry malloc v m = Done (new, m1) →
      spec_walk m1 current NULL NULL →
      store m1 head_slot (Some new) = Done m' →
      append_direct_spec malloc v head_slot m m'
  | spec_write_next current new m1 previous m' :
      load m head_slot = Done current →
      new_entry malloc v m = Done (new, m1) →
      spec_walk m1 current NULL (Some previous) →
      store m1 (Next previous) (Some new) = Done m' →
      append_direct_spec malloc v head_slot m m'.

(** ** Example states *)

(** A head that holds the list 3, 2 in blocks 1 and 2. *)
Definition two_nodes : state :=
  State (Some 1%positive)
        (<[1%positive := ListEntry 3 (Some 2%positive)]>
           (<[2%positive := ListEntry 2 NULL]> ∅))
        2 [].

(** A head whose single block refers to itself. *)
Definition self_loop : state :=
  State (Some 1%positive) (<[1%positive := ListEntry 0 (Some 1%positive)]> ∅)
        1 [].

(** ** Chains without an end, and the lines of several cycles *)

(** [endless h p]: [p] refers to a block, and every block reached from it
    through [next] fields is live and has a successor, so that [NULL] is
    never reached. *)
Definition endless (h : gmap loc list_entry_t) (p : ptr) : Prop :=
  ∃ l0, p = Some l0 ∧ ∀ l, rtc (points_to h) l0 l → ∃ l', points_to h l l'.

(** The lines [main] prints for the lists [nss] of consecutive cycles, the
    first of them being cycle [it]. *)
Fixpoint cycles_lines (it : nat) (nss : list (list (loc * Z))) : list output :=
  match nss with
  | [] => []
  | ns :: nss' => node_lines it ns ++ cycles_lines (S it) nss'
  end.

(** The iteration column of the per-node lines of an output. *)
Fixpoint line_iterations (out : list output) : list nat :=
  match out with
  | [] => []
  | Text _ :: out' => line_iterations out'
  | NodeLine it _ _ _ :: out' => it :: line_iterations out'
  end.

(** An allocator with no memory left: every call returns [NULL]. *)
Definition malloc_null : nat → gmap loc list_entry_t → option loc :=
  fun _ _ => None.

(** * Proofs *)

(** ** Lists in the heap: basic facts *)

Section ListFacts.

Implicit Types (h : gmap loc list_entry_t) (p : ptr) (ns : list (loc * Z)).

Lemma is_list_drop h p ns i l v :
  is_list h p ns → ns !! i = Some (l, v) → is_list h (Some l) (drop i ns).
Proof.
  revert p i. induction ns as [|[l0 v0] ns IH]; intros p i Hl Hi; [done|].
  destruct Hl as (-> & nx & Hh & Hl). destruct i as [|i]; simpl in *.
  - injection Hi as -> ->. eauto.
  - eauto.
Qed.

Lemma is_list_lookup h p ns i l v :
  is_list h p ns → ns !! i = Some (l, v) →
  ∃ nx, h !! l = Some (ListEntry v nx) ∧ is_list h nx (drop (S i) ns).
Proof.
  intros Hl Hi. pose proof (is_list_drop _ _ _ _ _ _ Hl Hi) as Hd.
  rewrite (drop_S _ _ _ Hi) in Hd. destruct Hd as (_ & nx & ? & ?). eauto.
Qed.

Lemma is_list_inj h p ns1 ns2 :
  is_list h p ns1 → is_list h p ns2 → ns1 = ns2.
Proof.
  revert p ns2. induction ns1 as [|[l v] ns1 IH]; intros p [|[l' v'] ns2]; simpl.
  - done.
  - intros -> (? & _). done.
  - intros (-> & _) ?. done.
  - intros (-> & nx & Hh & H1) (Heq & nx' & Hh' & H2).
    injection Heq as <-. rewrite Hh in Hh'. injection Hh' as <- <-.
    f_equal. eauto.
Qed.

(** A block occurs once in a list: the chain is acyclic. *)
Lemma is_list_index_inj h p ns i j l v v' :
  is_list h p ns → ns !! i = Some (l, v) → ns !! j = Some (l, v') → i = j.
Proof.
  intros Hl Hi Hj.
  pose proof (is_list_drop _ _ _ _ _ _ Hl Hi) as Hdi.
  pose proof (is_list_drop _ _ _ _ _ _ Hl Hj) as Hdj.
  pose proof (is_list_inj _ _ _ _ Hdi Hdj) as Heq.
  apply (f_equal List.length) in Heq. rewrite !length_drop in Heq.
  apply lookup_lt_Some in Hi, Hj. lia.
Qed.

Lemma is_list_live h p ns l v :
  is_list h p ns → (l, v) ∈ ns → ∃ nx, h !! l = Some (ListEntry v nx).
Proof.
  intros Hl [i Hi]%list_elem_of_lookup.
  destruct (is_list_lookup _ _ _ _ _ _ Hl Hi) as (nx & ? & _). eauto.
Qed.

(** Writing a block outside the list leaves the list as it is. *)
Lemma is_list_insert_other h p ns new e :
  (∀ v, (new, v) ∉ ns) → is_list h p ns → is_list (<[new := e]> h) p ns.
Proof.
  revert p. induction ns as [|[l v] ns IH]; intros p Hnew; [done|].
  intros (-> & nx & Hh & Hl). split; [done|]. exists nx. split.
  - rewrite lookup_insert_ne; [done|]. intros ->. apply (Hnew v). left.
  - apply IH; [|done]. intros v' Hin. apply (Hnew v'). by right.
Qed.

Lemma is_list_insert_fresh h p ns new e :
  h !! new = None → is_list h p ns → is_list (<[new := e]> h) p ns.
Proof.
  intros Hf Hl. apply is_list_insert_other; [|done].
  intros v Hin. destruct (is_list_live _ _ _ _ _ Hl Hin). congruence.
Qed.

(** The last block of a list holds [NULL]. *)
Lemma is_list_last h p ns l v :
  is_list h p ns → last ns = Some (l, v) → h !! l = Some (ListEntry v NULL).
Proof.
  intros Hl Hlast. rewrite last_lookup in Hlast.
  destruct (is_list_lookup _ _ _ _ _ _ Hl Hlast) as (nx & Hh & Hd).
  rewrite drop_ge in Hd.
  - simpl in Hd. by subst nx.
  - destruct ns; simpl in *; lia.
Qed.

(** Linking a block that holds [NULL] behind the last block of a list. *)
Lemma is_list_snoc h p ns l v new w :
  is_list h p ns → last ns = Some (l, v) → (∀ u, (new, u) ∉ ns) →
  h !! new = Some (ListEntry w NULL) →
  is_list (<[l := ListEntry v (Some new)]> h) p (ns ++ [(new, w)]).
Proof.
  revert p. induction ns as [|[l0 v0] ns IH]; intros p Hl Hlast Hnew Hh; [done|].
  destruct Hl as (-> & nx & Hl0 & Hl). split; [done|].
  assert (l0 ≠ new) as Hne by (intros ->; apply (Hnew v0); left).
  destruct ns as [|n1 ns].
  - simpl in *. injection Hlast as <- <-. subst nx.
    exists (Some new). rewrite lookup_insert_eq. split; [done|].
    split; [done|]. exists NULL. by rewrite lookup_insert_ne.
  - assert (l0 ≠ l) as Hl0l.
    { intros ->. change (last (n1 :: ns)) with (last ((l, v0) :: n1 :: ns)) in Hlast.
      rewrite last_lookup in Hlast.
      assert (is_list h (Some l) ((l, v0) :: n1 :: ns)) as Hfull.
      { split; [done|]. eauto. }
      pose proof (is_list_index_inj _ _ _ 0%nat _ _ _ _ Hfull eq_refl Hlast).
      simpl in *. lia. }
    exists nx. rewrite lookup_insert_ne; [|done]. split; [done|].
    apply IH; [done|done| |done].
    intros u Hin. apply (Hnew u). by right.
Qed.

End ListFacts.

(** ** The two traversal loops *)

Section Loops.

Implicit Types (m : state) (ns : list (loc * Z)).

Lemma tail_slot_cons start l v ns :
  tail_slot start ((l, v) :: ns) = tail_slot (Next l) ns.
Proof.
  unfold tail_slot. rewrite last_cons. by destruct (last ns) as [[l' v']|].
Qed.

Lemma tail_block_cons prev l v ns :
  tail_block prev ((l, v) :: ns) = tail_block (Some l) ns.
Proof.
  unfold tail_block. rewrite last_cons. by destruct (last ns) as [[l' v']|].
Qed.

Lemma tail_slot_block start ns :
  tail_slot start ns =
  match tail_block NULL ns with Some l => Next l | None => start end.
Proof. unfold tail_slot, tail_block. by destruct (last ns) as [[l v]|]. Qed.

Lemma load_Next m l e : heap m !! l = Some e → load m (Next l) = Done (next e).
Proof. intros H. simpl. by rewrite H. Qed.

(** With fuel for one more test than the list has blocks, the loop of
    [append_indirect] stops at the tail slot after one pass per block. *)
Lemma indirect_loop_list fuel m start p ns :
  load m start = Done p → is_list (heap m) p ns → (length ns < fuel)%nat →
  indirect_loop fuel m start = Done (tail_slot start ns, length ns).
Proof.
  revert fuel start p. induction ns as [|[l v] ns IH]; intros fuel start p Hp Hl Hf.
  - destruct fuel as [|fuel]; [simpl in Hf; lia|]. simpl in *. subst p.
    by rewrite Hp.
  - destruct fuel as [|fuel]; [simpl in Hf; lia|].
    destruct Hl as (-> & nx & Hh & Hl). cbn [indirect_loop]. rewrite Hp. cbn.
    rewrite (IH fuel (Next l) nx); [|by apply (load_Next m l (ListEntry v nx))|done|simpl in Hf; lia].
    cbn. by rewrite tail_slot_cons.
Qed.

(** With less fuel the test is never reached with [NULL]. *)
Lemma indirect_loop_short fuel m start p ns :
  load m start = Done p → is_list (heap m) p ns → (fuel ≤ length ns)%nat →
  indirect_loop fuel m start = OutOfFuel.
Proof.
  revert fuel start p. induction ns as [|[l v] ns IH]; intros fuel start p Hp Hl Hf.
  - destruct fuel; [done|simpl in Hf; lia].
  - destruct fuel as [|fuel]; [done|].
    destruct Hl as (-> & nx & Hh & Hl). cbn [indirect_loop]. rewrite Hp. cbn.
    rewrite (IH fuel (Next l) nx); [done|by apply (load_Next m l (ListEntry v nx))|done|simpl in Hf; lia].
Qed.

Lemma direct_loop_list fuel m p prev ns :
  is_list (heap m) p ns → (length ns < fuel)%nat →
  direct_loop fuel m p prev = Done (tail_block prev ns, length ns).
Proof.
  revert fuel p prev. induction ns as [|[l v] ns IH]; intros fuel p prev Hl Hf.
  - destruct fuel as [|fuel]; [simpl in Hf; lia|]. simpl in *. by subst p.
  - destruct fuel as [|fuel]; [simpl in Hf; lia|].
    destruct Hl as (-> & nx & Hh & Hl). cbn [direct_loop]. rewrite Hh. cbn.
    rewrite (IH fuel nx (Some l)); [|done|simpl in Hf; lia].
    cbn. by rewrite tail_block_cons.
Qed.

Lemma direct_loop_short fuel m p prev ns :
  is_list (heap m) p ns → (fuel ≤ length ns)%nat →
  direct_loop fuel m p prev = OutOfFuel.
Proof.
  revert fuel p prev. induction ns as [|[l v] ns IH]; intros fuel p prev Hl Hf.
  - destruct fuel; [done|simpl in Hf; lia].
  - destruct fuel as [|fuel]; [done|].
    destruct Hl as (-> & nx & Hh & Hl). cbn [direct_loop]. rewrite Hh. cbn.
    rewrite (IH fuel nx (Some l)); [done|done|simpl in Hf; lia].
Qed.

End Loops.

(** ** One append *)

Section Append.

Variable malloc : nat → gmap loc list_entry_t → option loc.

Hypothesis malloc_unused : returns_unused malloc.

Implicit Types (m : state) (ns : list (loc * Z)).

Lemma new_entry_Some v m new :
  malloc (mallocs m) (heap m) = Some new →
  new_entry malloc v m = Done (new, with_entry new v m).
Proof. intros H. unfold new_entry. by rewrite H. Qed.

Lemma load_with_entry m start p new v :
  heap m !! new = None → load m start = Done p →
  load (with_entry new v m) start = Done p.
Proof.
  intros Hnew. destruct start as [|l0]; simpl; [done|].
  destruct (heap m !! l0) as [e|] eqn:He; [|done].
  rewrite lookup_insert_ne; [by rewrite He|congruence].
Qed.

(** The slot that ends a list holds [NULL]. *)
Lemma load_tail_slot m start p ns :
  load m start = Done p → is_list (heap m) p ns →
  load m (tail_slot start ns) = Done NULL.
Proof.
  intros Hp Hl. unfold tail_slot. destruct (last ns) as [[l u]|] eqn:Hlast.
  - by rewrite (load_Next m l _ (is_list_last _ _ _ _ _ Hl Hlast)).
  - apply last_None in Hlast. subst ns. simpl in Hl. by subst p.
Qed.

(** Both functions do the same store when the slot holds a list. *)
Lemma append_indirect_store fuel v start m p ns new :
  load m start = Done p → is_list (heap m) p ns →
  malloc (mallocs m) (heap m) = Some new → (length ns < fuel)%nat →
  append_indirect malloc fuel v start m =
  store (with_entry new v m) (tail_slot start ns) (Some new).
Proof.
  intros Hp Hl Hm Hf. pose proof (malloc_unused _ _ _ Hm) as Hnew.
  unfold append_indirect. rewrite (new_entry_Some _ _ _ Hm). cbn.
  rewrite (indirect_loop_list fuel _ start p ns); [done| | |done].
  - by apply load_with_entry.
  - by apply is_list_insert_fresh.
Qed.

Lemma append_direct_store fuel v start m p ns new :
  load m start = Done p → is_list (heap m) p ns →
  malloc (mallocs m) (heap m) = Some new → (length ns < fuel)%nat →
  append_direct malloc fuel v start m =
  store (with_entry new v m) (tail_slot start ns) (Some new).
Proof.
  intros Hp Hl Hm Hf. pose proof (malloc_unused _ _ _ Hm) as Hnew.
  unfold append_direct. rewrite Hp. cbn. rewrite (new_entry_Some _ _ _ Hm). cbn.
  rewrite (direct_loop_list fuel _ p NULL ns); [|by apply is_list_insert_fresh|done].
  cbn. rewrite tail_slot_block. by destruct (tail_block NULL ns).
Qed.

Lemma append_store st fuel v start m p ns new :
  load m start = Done p → is_list (heap m) p ns →
  malloc (mallocs m) (heap m) = Some new → (length ns < fuel)%nat →
  append malloc st fuel v start m =
  store (with_entry new v m) (tail_slot start ns) (Some new).
Proof.
  destruct st; [apply append_indirect_store|apply append_direct_store].
Qed.

(** The store succeeds and links the new block behind the list. *)
Lemma store_appended v start m p ns new :
  load m start = Done p → is_list (heap m) p ns → heap m !! new = None →
  ∃ m', store (with_entry new v m) (tail_slot start ns) (Some new) = Done m'
        ∧ appended start ns new v m m'.
Proof.
  intros Hp Hl Hnew.
  assert (∀ u, (new, u) ∉ ns) as Hout.
  { intros u Hin. destruct (is_list_live _ _ _ _ _ Hl Hin). congruence. }
  pose proof (load_tail_slot _ _ _ _ Hp Hl) as Hend.
  unfold tail_slot in *. destruct (last ns) as [[l u]|] eqn:Hlast.
  - (* the list has a last block [l] *)
    pose proof (is_list_last _ _ _ _ _ Hl Hlast) as Hlu.
    assert (l ≠ new) as Hne by congruence.
    eexists. split.
    { simpl. rewrite lookup_insert_ne; [|done]. rewrite Hlu. reflexivity. }
    split; unfold tail_slot; rewrite ?Hlast; simpl; try done.
    + by rewrite lookup_insert_ne, lookup_insert_eq.
    + exists p. split; [done|]. split; [done|]. exists p. split.
      * destruct start as [|l0]; simpl in *; [done|].
        destruct (heap m !! l0) as [e|] eqn:He; [|done].
        assert (l0 ≠ l) as Hl0.
        { intros ->. rewrite Hlu in He. injection He as <-. injection Hp as <-.
          destruct ns as [|[l1 v1] ns']; [done|]. by destruct Hl. }
        rewrite lookup_insert_ne, lookup_insert_ne; [by rewrite He|congruence|congruence].
      * apply is_list_snoc; [by apply is_list_insert_fresh|done|done|].
        apply lookup_insert_eq.
    + intros l' Hl' Htl. rewrite lookup_insert_ne; [|congruence].
      by rewrite lookup_insert_ne.
    + intros l' [= <-]. exists u. split; [done|]. by rewrite lookup_insert_eq.
  - (* the list is empty: the slot is [start] itself *)
    apply last_None in Hlast. subst ns. simpl in Hl. subst p.
    destruct start as [|l0]; simpl in *.
    + eexists. split; [reflexivity|]. split; unfold tail_slot; rewrite ?Hlast; simpl; try done.
      * apply lookup_insert_eq.
      * exists NULL. split; [done|]. split; [done|]. exists (Some new).
        split; [done|]. split; [done|]. exists NULL.
        by rewrite lookup_insert_eq.
      * intros l Hl _. by rewrite lookup_insert_ne.
    + destruct (heap m !! l0) as [e|] eqn:He; [|done].
      assert (l0 ≠ new) as Hne by congruence.
      rewrite lookup_insert_ne; [|done]. rewrite He.
      eexists. split; [reflexivity|]. split; unfold tail_slot; rewrite ?Hlast; simpl; try done.
      * by rewrite He.
      * by rewrite lookup_insert_ne, lookup_insert_eq.
      * exists NULL. rewrite He. split; [done|]. split; [done|].
        exists (Some new). rewrite lookup_insert_eq. split; [done|].
        split; [done|]. exists NULL.
        by rewrite lookup_insert_ne, lookup_insert_eq.
      * intros l Hl Htl. rewrite lookup_insert_ne; [|congruence].
        by rewrite lookup_insert_ne.
      * intros l [= <-]. destruct e as [u nx]. simpl in *.
        injection Hp as ->. exists u. split; [done|].
        by rewrite lookup_insert_eq.
Qed.

(** Either strategy, on a slot that holds a list, returns such a state. *)
Lemma append_appended st fuel v start m p ns new :
  load m start = Done p → is_list (heap m) p ns →
  malloc (mallocs m) (heap m) = Some new → (length ns < fuel)%nat →
  ∃ m', append malloc st fuel v start m = Done m' ∧ appended start ns new v m m'.
Proof.
  intros Hp Hl Hm Hf. rewrite (append_store st fuel v start m p ns new) by done.
  apply store_appended with p; [done|done|]. by eapply malloc_unused.
Qed.

End Append.

(** ** Building and consuming a list *)

Section Consume.

Implicit Types (m : state) (ns : list (loc * Z)) (h : gmap loc list_entry_t).

Lemma is_list_first h p ns : is_list h p ns → p = first_block ns.
Proof. destruct ns as [|[l v] ns]; simpl; [done|]. by intros [-> _]. Qed.

Lemma is_list_delete_other h p ns l :
  (∀ v, (l, v) ∉ ns) → is_list h p ns → is_list (delete l h) p ns.
Proof.
  revert p. induction ns as [|[l0 v0] ns IH]; intros p Hout; [done|].
  intros (-> & nx & Hh & Hl). split; [done|]. exists nx. split.
  - rewrite lookup_delete_ne; [done|]. intros ->. apply (Hout v0). left.
  - apply IH; [|done]. intros v Hin. apply (Hout v). by right.
Qed.

(** The first block of a list does not occur again in it. *)
Lemma is_list_head_once h l v nx ns :
  h !! l = Some (ListEntry v nx) → is_list h nx ns → ∀ u, (l, u) ∉ ns.
Proof.
  intros Hh Hl u [i Hi]%list_elem_of_lookup.
  assert (is_list h (Some l) ((l, v) :: ns)) as Hfull by (split; eauto).
  pose proof (is_list_index_inj _ _ _ 0%nat (S i) _ _ _ Hfull eq_refl Hi). lia.
Qed.

Lemma line_values_app out1 out2 :
  line_values (out1 ++ out2) = line_values out1 ++ line_values out2.
Proof.
  induction out1 as [|[t|it l v nx] out1 IH]; simpl; [done|done|by f_equal].
Qed.

Lemma line_values_node_lines it ns : line_values (node_lines it ns) = ns.*2.
Proof. induction ns as [|[l v] ns IH]; simpl; [done|by f_equal]. Qed.

Lemma lookup_free_all ls h l :
  free_all ls h !! l = if decide (l ∈ ls) then None else h !! l.
Proof.
  unfold free_all. revert h. induction ls as [|l0 ls IH]; intros h.
  - destruct (decide (l ∈ [])) as [Hin|_]; [by apply elem_of_nil in Hin|done].
  - cbn [foldl]. rewrite IH.
    destruct (decide (l ∈ ls)) as [Hin|Hout];
      destruct (decide (l ∈ l0 :: ls)) as [Hin'|Hout']; try done.
    + exfalso. apply Hout'. by right.
    + apply elem_of_cons in Hin' as [->|?]; [|done]. apply lookup_delete_eq.
    + apply lookup_delete_ne. intros ->. apply Hout'. left.
Qed.

(** The loop of [main] visits the blocks of a list first to last, prints one
    line per block when [output] is set, and frees each block. *)
Lemma consume_loop_list fuel output it m p ns :
  is_list (heap m) p ns → (length ns < fuel)%nat →
  consume_loop fuel output it p m =
  Done (State (head m) (free_all ns.*1 (heap m)) (mallocs m)
              (stdout m ++ if output then node_lines it ns else [])).
Proof.
  revert fuel m p. induction ns as [|[l v] ns IH]; intros fuel m p Hl Hf.
  - destruct fuel as [|fuel]; [simpl in Hf; lia|]. simpl in *. subst p.
    destruct m, output; simpl; by rewrite app_nil_r.
  - destruct fuel as [|fuel]; [simpl in Hf; lia|].
    destruct Hl as (-> & nx & Hh & Hl). cbn [consume_loop]. rewrite Hh.
    pose proof (is_list_head_once _ _ _ _ _ Hh Hl) as Honce.
    pose proof (is_list_first _ _ _ Hl) as ->.
    rewrite (IH fuel); [| |simpl in Hf; lia].
    + destruct output; simpl; [|done]. by rewrite <- app_assoc.
    + destruct output; simpl; by apply is_list_delete_other.
Qed.

End Consume.

Section Build.

Variable malloc : nat → gmap loc list_entry_t → option loc.
Variable char_signed : bool.

Hypothesis malloc_unused : returns_unused malloc.
Hypothesis malloc_total : never_null malloc.

Implicit Types (m : state) (ns : list (loc * Z)) (vs : list Z).

Lemma tail_slot_snoc start ns l v : tail_slot start (ns ++ [(l, v)]) = Next l.
Proof. unfold tail_slot. by rewrite last_snoc. Qed.

Lemma append_all_list st fuel vs start m p ns :
  load m start = Done p → is_list (heap m) p ns →
  (length ns + length vs ≤ fuel)%nat →
  ∃ m' ns', append_all malloc st fuel vs start m = Done m'
            ∧ built start ns ns' vs m m'.
Proof.
  revert m p ns. induction vs as [|v vs IH]; intros m p ns Hp Hl Hf.
  - exists m, []. split; [done|]. split; try done.
    + exists p. by rewrite app_nil_r.
    + by intros l ?%elem_of_nil.
  - destruct (malloc_total (mallocs m) (heap m)) as [new Hm].
    destruct (append_appended malloc malloc_unused st fuel v start m p ns new)
      as (m1 & Happ & A); [done|done|done|simpl in Hf; lia|].
    destruct (app_list _ _ _ _ _ _ A) as (_ & _ & _ & p1 & Hp1 & Hl1).
    destruct (IH m1 p1 (ns ++ [(new, v)])) as (m' & ns' & Hall & B);
      [done|done|rewrite length_app; simpl in *; lia|].
    exists m', ((new, v) :: ns'). split.
    { cbn [append_all]. rewrite Happ. exact Hall. }
    destruct B as [Bv [p' [Hp' Hl']] Bu Bo Bh Bm Bs].
    rewrite tail_slot_snoc in Bo, Bh.
    assert (∀ l, l ≠ new → tail_slot start ns ≠ Next l →
                 heap m1 !! l = heap m !! l) as Ho
      by apply (app_others _ _ _ _ _ _ A).
    split.
    + cbn [fmap list_fmap]. simpl. by f_equal.
    + exists p'. split; [done|]. by rewrite <- app_assoc in Hl'.
    + intros l [->|Hin]%elem_of_cons; [apply (app_unused _ _ _ _ _ _ A)|].
      specialize (Bu l Hin).
      destruct (decide (l = new)) as [->|Hne].
      { rewrite (app_entry _ _ _ _ _ _ A) in Bu. done. }
      destruct (decide (tail_slot start ns = Next l)) as [Ht|Ht].
      { destruct (app_tail _ _ _ _ _ _ A l Ht) as (u & _ & Hu). congruence. }
      by rewrite <- Ho.
    + intros l Hout Ht.
      assert (l ≠ new) as Hne by (intros ->; apply Hout; left).
      rewrite Bo; [by apply Ho| |congruence].
      intros Hin. apply Hout. by right.
    + intros Ht. rewrite Bh by done. rewrite (app_head _ _ _ _ _ _ A).
      by destruct (tail_slot start ns).
    + rewrite Bm, (app_mallocs _ _ _ _ _ _ A). simpl. lia.
    + by rewrite Bs, (app_stdout _ _ _ _ _ _ A).
Qed.

(** The inner loop of [main] appends the value [c - '0'] of each character
    [c] that [strlen] counts, first to last. *)
Lemma get_c_chars s i :
  (i < strlen s)%nat → String.get i s = c_chars s !! i.
Proof.
  revert i. induction s as [|c s IH]; intros i Hi; simpl in *; [lia|].
  destruct (Ascii.eqb c zero); [lia|].
  destruct i as [|i]; [done|]. simpl. apply IH. lia.
Qed.

Lemma length_c_chars s : length (c_chars s) = strlen s.
Proof.
  induction s as [|c s IH]; simpl; [done|].
  destruct (Ascii.eqb c zero); simpl; by rewrite ?IH.
Qed.

Lemma build_loop_drop st fuel s n index m :
  (index + n = strlen s)%nat →
  build_loop malloc char_signed st fuel n index s m =
  append_all malloc st fuel (digit_of char_signed <$> drop index (c_chars s))
             Head m.
Proof.
  revert index m. induction n as [|n IH]; intros index m Hn.
  - rewrite drop_ge; [done|]. rewrite length_c_chars. lia.
  - cbn [build_loop]. rewrite get_c_chars by lia.
    destruct (c_chars s !! index) as [c|] eqn:Hc.
    + rewrite (drop_S _ _ _ Hc). cbn [fmap list_fmap append_all].
      destruct (append malloc st fuel (digit_of char_signed c) Head m) as [m'| |];
        cbn; [|done|done].
      apply IH. lia.
    + apply lookup_ge_None in Hc. rewrite length_c_chars in Hc. lia.
Qed.

Lemma build_loop_append_all st fuel s m :
  build_loop malloc char_signed st fuel (strlen s) O s m =
  append_all malloc st fuel (digit_of char_signed <$> c_chars s) Head m.
Proof. by rewrite build_loop_drop. Qed.

End Build.

(** ** The cycles of [main] *)

Section Run.

Variable malloc : nat → gmap loc list_entry_t → option loc.
Variable atoi : string → Z.
Variable char_signed : bool.

Hypothesis malloc_unused : returns_unused malloc.
Hypothesis malloc_total : never_null malloc.

Implicit Types (m : state) (ns : list (loc * Z)).

(** One cycle on any state [m]: the inner loop builds, from an empty head
    and out of blocks that were not live, a list [ns] of the values of the
    argument; the second loop prints and frees it, and the heap is again
    the heap of [m]. *)
Lemma cycle_run st fuel output it s m :
  (strlen s < fuel)%nat →
  ∃ b ns,
    build_loop malloc char_signed st fuel (strlen s) O s (set_head NULL m)
      = Done b
    ∧ is_list (heap b) (head b) ns
    ∧ ns.*2 = (digit_of char_signed <$> c_chars s)
    ∧ (∀ l, l ∈ ns.*1 → heap m !! l = None)
    ∧ (∀ l, l ∉ ns.*1 → heap b !! l = heap m !! l)
    ∧ cycle malloc char_signed st fuel output it s m =
      Done (State (first_block ns) (heap m) (mallocs m + strlen s)
                  (stdout m ++ if output then node_lines it ns else [])).
Proof.
  intros Hf. unfold cycle. rewrite build_loop_append_all.
  destruct (append_all_list malloc malloc_unused malloc_total st fuel
              (digit_of char_signed <$> c_chars s) Head (set_head NULL m) NULL [])
    as (b & ns & Hb & B); [done|done| |].
  { rewrite length_fmap, length_c_chars. simpl. lia. }
  destruct B as [Bv [p' [Hp' Hl']] Bu Bo _ Bm Bs]. simpl in *.
  injection Hp' as <-.
  exists b, ns. rewrite Hb. repeat split; try done.
  { intros l Hl. by apply Bo. }
  cbn. rewrite (consume_loop_list fuel output it b (head b) ns); [|done|].
  - f_equal. rewrite Bm, Bs, length_fmap, length_c_chars.
    rewrite (is_list_first _ _ _ Hl'). f_equal.
    apply map_eq. intros l. rewrite lookup_free_all.
    destruct (decide (l ∈ ns.*1)) as [Hin|Hout]; [by rewrite Bu|by apply Bo].
  - apply (f_equal length) in Bv.
    rewrite !length_fmap, length_c_chars in Bv. lia.
Qed.

Lemma main_loop_split st fuel output a b it s m :
  main_loop malloc char_signed st fuel output (a + b) it s m =
  m' ← main_loop malloc char_signed st fuel output a it s m ;
  main_loop malloc char_signed st fuel output b (it + a) s m'.
Proof.
  revert it m. induction a as [|a IH]; intros it m.
  - cbn. by rewrite Nat.add_0_r.
  - cbn [Nat.add main_loop].
    destruct (cycle malloc char_signed st fuel output it s m) as [m1| |];
      cbn; [|done|done].
    rewrite IH. by replace (S it + a)%nat with (it + S a)%nat by lia.
Qed.

(** Any number of cycles runs to the end, leaves the heap as it found it and
    prints, when [output] is set, the values of the argument once per
    cycle. *)
Lemma main_loop_run st fuel output n it s m :
  (strlen s < fuel)%nat →
  ∃ m', main_loop malloc char_signed st fuel output n it s m = Done m'
        ∧ heap m' = heap m
        ∧ mallocs m' = (mallocs m + n * strlen s)%nat
        ∧ line_values (stdout m') =
          line_values (stdout m) ++
          (if output
           then List.concat (replicate n (digit_of char_signed <$> c_chars s))
           else []).
Proof.
  intros Hf. revert it m. induction n as [|n IH]; intros it m.
  - exists m. repeat split; [simpl; lia|]. destruct output; by rewrite app_nil_r.
  - destruct (cycle_run st fuel output it s m Hf)
      as (b & ns & _ & _ & Hv & _ & _ & Hc).
    cbn [main_loop]. rewrite Hc. cbn.
    edestruct IH as (m' & -> & Hh & Hm & Ho). exists m'.
    split; [done|]. simpl in *. rewrite Hh, Hm, Ho. repeat split; [lia|].
    rewrite line_values_app. destruct output; simpl.
    + by rewrite line_values_node_lines, Hv, app_assoc.
    + by rewrite !app_nil_r.
Qed.

End Run.

(** ** The chain invariant holds of lists, and only of lists *)

Section Chain.

Implicit Types (m : state) (ns : list (loc * Z)) (h : gmap loc list_entry_t).

Lemma is_list_points_to h p ns i l v l' :
  is_list h p ns → ns !! i = Some (l, v) → points_to h l l' →
  ∃ v', ns !! S i = Some (l', v').
Proof.
  intros Hl Hi (e & He & Hn).
  destruct (is_list_lookup _ _ _ _ _ _ Hl Hi) as (nx & Hh & Hd).
  rewrite Hh in He. injection He as <-. simpl in Hn. subst nx.
  destruct (drop (S i) ns) as [|[l1 v1] rest] eqn:Hdrop; [done|].
  destruct Hd as [[= <-] _]. exists v1.
  pose proof (lookup_drop ns (S i) 0) as Hk. rewrite Hdrop in Hk.
  simpl in Hk. by rewrite Nat.add_0_r in Hk.
Qed.

Lemma is_list_rtc h p ns i l v l' :
  is_list h p ns → ns !! i = Some (l, v) → rtc (points_to h) l l' →
  ∃ j v', (i ≤ j)%nat ∧ ns !! j = Some (l', v').
Proof.
  intros Hl Hi Hr. revert i v Hi.
  induction Hr as [l|l l1 l' Hs Hr IH]; intros i v Hi; [by eauto|].
  destruct (is_list_points_to _ _ _ _ _ _ _ Hl Hi Hs) as (v1 & Hi1).
  destruct (IH _ _ Hi1) as (j & v' & Hle & Hj). exists j, v'. split; [lia|done].
Qed.

Lemma is_list_tc h p ns i l v l' :
  is_list h p ns → ns !! i = Some (l, v) → tc (points_to h) l l' →
  ∃ j v', (i < j)%nat ∧ ns !! j = Some (l', v').
Proof.
  intros Hl Hi Hc. revert i v Hi.
  induction Hc as [l l' Hs|l l1 l' Hs Hc IH]; intros i v Hi;
    destruct (is_list_points_to _ _ _ _ _ _ _ Hl Hi Hs) as (v1 & Hi1).
  - exists (S i), v1. split; [lia|done].
  - destruct (IH _ _ Hi1) as (j & v' & Hlt & Hj). exists j, v'.
    split; [lia|done].
Qed.

Lemma in_chain_index m ns l :
  is_list (heap m) (head m) ns → in_chain m l → ∃ i v, ns !! i = Some (l, v).
Proof.
  intros Hl (l0 & Hh & Hr).
  destruct ns as [|[l1 v1] ns]; simpl in Hl; [by rewrite Hh in Hl|].
  destruct Hl as (Heq & nx & Hh1 & Hl). rewrite Hh in Heq. injection Heq as ->.
  assert (is_list (heap m) (head m) ((l1, v1) :: ns)) as Hfull.
  { rewrite Hh. split; eauto. }
  destruct (is_list_rtc _ _ _ 0%nat _ _ _ Hfull eq_refl Hr) as (j & v' & _ & Hj).
  eauto.
Qed.

(** A head that holds a list satisfies the invariant. *)
Lemma is_list_chain_invariant m ns :
  is_list (heap m) (head m) ns → chain_invariant m.
Proof.
  intros Hl. split.
  - intros l (i & v & Hi)%(in_chain_index _ _ _ Hl).
    destruct (is_list_lookup _ _ _ _ _ _ Hl Hi) as (nx & -> & _). eauto.
  - intros l (i & v & Hi)%(in_chain_index _ _ _ Hl) Hc.
    destruct (is_list_tc _ _ _ _ _ _ _ Hl Hi Hc) as (j & v' & Hlt & Hj).
    pose proof (is_list_index_inj _ _ _ _ _ _ _ _ Hl Hi Hj). lia.
  - intros l1 l2 l (i1 & v1 & Hi1)%(in_chain_index _ _ _ Hl)
      (i2 & v2 & Hi2)%(in_chain_index _ _ _ Hl) H1 H2.
    destruct (is_list_points_to _ _ _ _ _ _ _ Hl Hi1 H1) as (u1 & Hj1).
    destruct (is_list_points_to _ _ _ _ _ _ _ Hl Hi2 H2) as (u2 & Hj2).
    pose proof (is_list_index_inj _ _ _ _ _ _ _ _ Hl Hj1 Hj2) as Heq.
    injection Heq as ->. congruence.
  - intros l1 l (i & v & Hi)%(in_chain_index _ _ _ Hl) Hh Hp.
    destruct (is_list_points_to _ _ _ _ _ _ _ Hl Hi Hp) as (u & Hj).
    destruct ns as [|[l0 v0] ns]; [done|].
    destruct Hl as (Heq & nx & Hh0 & Hl). rewrite Hh in Heq. injection Heq as ->.
    assert (is_list (heap m) (Some l0) ((l0, v0) :: ns)) as Hfull
      by (split; eauto).
    pose proof (is_list_index_inj _ _ _ 0%nat _ _ _ _ Hfull eq_refl Hj). lia.
Qed.

(** In a finite heap, references that stay among live blocks and never come
    back to a block end in [NULL]. *)
Lemma finite_chain h (X : gset loc) p :
  (∀ l0 l, p = Some l0 → rtc (points_to h) l0 l →
           l ∈ X ∧ is_Some (h !! l) ∧ ¬ tc (points_to h) l l) →
  ∃ ns, is_list h p ns.
Proof.
  revert p. induction (set_wf X) as [X _ IH]. intros p HX.
  destruct p as [l0|]; [|by exists []].
  destruct (HX l0 l0 eq_refl (rtc_refl _ _)) as (HinX & [[v nx] Hh] & Hcyc).
  assert (∀ l1, nx = Some l1 → points_to h l0 l1) as Hstep.
  { intros l1 ->. by exists (ListEntry v (Some l1)). }
  assert (X ∖ {[l0]} ⊂ X) as Hsub.
  { split.
    - intros x Hx. by apply elem_of_difference in Hx as [? _].
    - intros Hc. specialize (Hc l0 HinX).
      apply elem_of_difference in Hc as [_ Hc]. apply Hc.
      by apply elem_of_singleton. }
  destruct (IH (X ∖ {[l0]}) Hsub nx) as [ns Hns].
  - intros l1 l Hnx Hr. specialize (Hstep l1 Hnx).
    destruct (HX l0 l eq_refl (rtc_l _ _ _ _ Hstep Hr)) as (? & ? & ?).
    split; [|done]. apply elem_of_difference. split; [done|].
    intros ->%elem_of_singleton. apply Hcyc.
    eapply tc_rtc_r; [by apply tc_once|done].
  - exists ((l0, v) :: ns). split; [done|]. eauto.
Qed.

(** A state that satisfies the invariant holds a list at its head. *)
Lemma chain_invariant_is_list m :
  chain_invariant m → ∃ ns, is_list (heap m) (head m) ns.
Proof.
  intros [Hn Ha _ _]. apply (finite_chain _ (dom (heap m))).
  intros l0 l Hh Hr.
  assert (in_chain m l) as Hin by (exists l0; done).
  split; [|by auto]. apply elem_of_dom. auto.
Qed.

End Chain.

(** ** [append_direct] and the algorithm of the design *)

Section DirectSpec.

Implicit Types (m : state).

Lemma direct_loop_walk fuel m direct prev last n :
  direct_loop fuel m direct prev = Done (last, n) → spec_walk m direct prev last.
Proof.
  revert direct prev n. induction fuel as [|fuel IH]; intros direct prev n; [done|].
  cbn [direct_loop]. destruct direct as [l|].
  - destruct (heap m !! l) as [e|] eqn:He; [|done].
    destruct (direct_loop fuel m (next e) (Some l)) as [[last' n']| |] eqn:Hloop;
      cbn; [|done|done].
    intros [= -> <-]. eapply walk_advance; eauto.
  - intros [= -> <-]. constructor.
Qed.

Lemma walk_direct_loop m direct prev last :
  spec_walk m direct prev last →
  ∃ n, ∀ fuel, (n < fuel)%nat → direct_loop fuel m direct prev = Done (last, n).
Proof.
  induction 1 as [prev|l e prev last He _ [n IH]].
  - exists O. intros [|fuel] Hf; [lia|done].
  - exists (S n). intros [|fuel] Hf; [lia|]. cbn [direct_loop]. rewrite He.
    rewrite IH by lia. done.
Qed.

Lemma direct_loop_mono fuel fuel' m direct prev last n :
  direct_loop fuel m direct prev = Done (last, n) → (fuel ≤ fuel')%nat →
  direct_loop fuel' m direct prev = Done (last, n).
Proof.
  revert fuel' direct prev last n.
  induction fuel as [|fuel IH]; intros fuel' direct prev last n; [done|].
  intros Hd Hle. destruct fuel' as [|fuel']; [lia|]. cbn [direct_loop] in *.
  destruct direct as [l|]; [|done].
  destruct (heap m !! l) as [e|]; [|done].
  destruct (direct_loop fuel m (next e) (Some l)) as [[last' n']| |] eqn:Hloop;
    cbn in Hd; [|done|done].
  rewrite (IH fuel' _ _ _ _ Hloop) by lia. done.
Qed.

Lemma append_direct_sound malloc fuel v start m m' :
  append_direct malloc fuel v start m = Done m' →
  append_direct_spec malloc v start m m'.
Proof.
  unfold append_direct.
  destruct (load m start) as [direct| |] eqn:Hload; cbn; [|done|done].
  destruct (new_entry malloc v m) as [[new m1]| |] eqn:Hnew; cbn; [|done|done].
  destruct (direct_loop fuel m1 direct NULL) as [[prev n]| |] eqn:Hloop;
    cbn; [|done|done].
  apply direct_loop_walk in Hloop. destruct prev as [l|]; intros Hstore.
  - by eapply spec_write_next.
  - by eapply spec_write_head.
Qed.

Lemma append_direct_complete malloc v start m m' :
  append_direct_spec malloc v start m m' →
  ∃ n, ∀ fuel, (n < fuel)%nat → append_direct malloc fuel v start m = Done m'.
Proof.
  intros [current new m1 m2 Hload Hnew Hwalk Hstore
         |current new m1 previous m2 Hload Hnew Hwalk Hstore];
    destruct (walk_direct_loop _ _ _ _ Hwalk) as [n Hn]; exists n;
    intros fuel Hf; unfold append_direct; rewrite Hload; cbn;
    rewrite Hnew; cbn; rewrite (Hn fuel Hf); cbn; done.
Qed.

End DirectSpec.

(** ** Facts about the example states and the example allocator *)

Lemma malloc_fresh_unused : returns_unused malloc_fresh.
Proof.
  intros n h l [= <-]. apply not_elem_of_dom. apply is_fresh.
Qed.

Lemma malloc_fresh_total : never_null malloc_fresh.
Proof. intros n h. by eexists. Qed.

Lemma two_nodes_list :
  is_list (heap two_nodes) (head two_nodes) [(1%positive, 3); (2%positive, 2)].
Proof. apply (bool_decide_unpack _). vm_compute. exact I. Qed.

(** When [malloc] returns [NULL] both functions write through [NULL]. *)
Lemma append_malloc_null malloc st fuel v m :
  malloc (mallocs m) (heap m) = None →
  append malloc st fuel v Head m = Fault.
Proof.
  intros Hm. destruct st; simpl.
  - unfold append_indirect, new_entry. by rewrite Hm.
  - unfold append_direct, new_entry. simpl. by rewrite Hm.
Qed.

(** The run on the string 321 with one cycle: the values 3, 2, 1 are
    printed in this order, from three blocks, and every block is freed. *)
Example main_321_indirect :
  main malloc_fresh atoi_dec true Indirect 4 ["prog"; "321"; "1"]%string
       empty_state
  = Done (0, State (Some 1%positive) ∅ 3
                   [ banner Indirect;
                     NodeLine 0 1%positive 3 (Some 2%positive);
                     NodeLine 0 2%positive 2 (Some 3%positive);
                     NodeLine 0 3%positive 1 NULL ]).
Proof. vm_compute. reflexivity. Qed.

Example main_321_direct_silent :
  main malloc_fresh atoi_dec true Direct 4 ["prog"; "321"; "2"; "q"]%string
       empty_state
  = Done (0, State (Some 1%positive) ∅ 6 []).
Proof. vm_compute. reflexivity. Qed.

(** With the empty string no append is made and nothing is visited. *)
Example main_empty_string :
  main malloc_fresh atoi_dec true Indirect 1 ["prog"%string; EmptyString; "1"%string]
       empty_state
  = Done (0, State NULL ∅ 0 [banner Indirect]).
Proof. vm_compute. reflexivity. Qed.

(** On a cyclic chain both loops use up any fuel. *)
Lemma indirect_loop_self_loop fuel s :
  s = Head ∨ s = Next 1%positive → indirect_loop fuel self_loop s = OutOfFuel.
Proof.
  revert s. induction fuel as [|fuel IH]; intros s Hs; [done|].
  cbn [indirect_loop].
  assert (load self_loop s = Done (Some 1%positive)) as ->
    by (by destruct Hs as [-> | ->]).
  cbn. rewrite IH; auto.
Qed.

Lemma direct_loop_self_loop fuel prev :
  direct_loop fuel self_loop (Some 1%positive) prev = OutOfFuel.
Proof.
  revert prev. induction fuel as [|fuel IH]; intros prev; [done|].
  change (direct_loop (S fuel) self_loop (Some 1%positive) prev)
    with ('(p, n) ← direct_loop fuel self_loop (Some 1%positive)
                      (Some 1%positive); Done (p, S n)).
  by rewrite IH.
Qed.

Lemma self_loop_not_chain : ¬ chain_invariant self_loop.
Proof.
  intros [_ Ha _ _]. apply (Ha 1%positive).
  - exists 1%positive. split; [done|]. apply rtc_refl.
  - apply tc_once. by exists (ListEntry 0 (Some 1%positive)).
Qed.

(** ** The properties of the design *)

Lemma append_all_agree malloc fuel vs start m p ns :
  returns_unused malloc → never_null malloc →
  load m start = Done p → is_list (heap m) p ns →
  (length ns + length vs ≤ fuel)%nat →
  append_all malloc Direct fuel vs start m =
  append_all malloc Indirect fuel vs start m.
Proof.
  intros Hu Ht. revert m p ns.
  induction vs as [|v vs IH]; intros m p ns Hp Hl Hf; [done|].
  destruct (Ht (mallocs m) (heap m)) as [new Hm]. cbn [append_all].
  assert (length ns < fuel)%nat as Hlt by (simpl in Hf; lia).
  rewrite (append_store malloc Hu Direct fuel v start m p ns new) by done.
  rewrite (append_store malloc Hu Indirect fuel v start m p ns new) by done.
  destruct (store_appended v start m p ns new Hp Hl (Hu _ _ _ Hm))
    as (m1 & -> & A). cbn.
  destruct (app_list _ _ _ _ _ _ A) as (_ & _ & _ & p1 & Hp1 & Hl1).
  apply (IH m1 p1 (ns ++ [(new, v)])); [done|done|].
  rewrite length_app. simpl in *. lia.
Qed.

(** C1: for every sequence of values (so for every non-empty one), appending
    them in order to an empty head with [append_indirect] and with
    [append_direct] returns one and the same state, whose head holds a list
    with exactly the input values in the input order. *)
Theorem append_strategies_equivalent malloc fuel (vs : list Z) (m : state) :
  returns_unused malloc → never_null malloc →
  head m = NULL → (length vs ≤ fuel)%nat →
  ∃ m' ns,
    append_all malloc Indirect fuel vs Head m = Done m'
    ∧ append_all malloc Direct fuel vs Head m = Done m'
    ∧ is_list (heap m') (head m') ns
    ∧ ns.*2 = vs.
Proof.
  intros Hu Ht Hh Hf.
  destruct (append_all_list malloc Hu Ht Indirect fuel vs Head m NULL [])
    as (m' & ns & Hi & B); [by rewrite <- Hh|done|simpl; lia|].
  exists m', ns. split; [done|]. split.
  - rewrite (append_all_agree malloc fuel vs Head m NULL []);
      [done|done|done|by rewrite <- Hh|done|simpl; lia].
  - destruct B as [Bv [p' [[= <-] Hl]] _ _ _ _ _]. done.
Qed.

Lemma append_strategies_equivalent_witness :
  ∃ m' ns,
    append_all malloc_fresh Indirect 3 [3; 2; 1] Head empty_state = Done m'
    ∧ append_all malloc_fresh Direct 3 [3; 2; 1] Head empty_state = Done m'
    ∧ is_list (heap m') (head m') ns
    ∧ ns.*2 = [3; 2; 1].
Proof.
  apply (append_strategies_equivalent malloc_fresh 3 [3; 2; 1] empty_state
           malloc_fresh_unused malloc_fresh_total).
  - reflexivity.
  - simpl. lia.
Defined.

(** C2: on a slot that holds a list, [append_indirect] takes one block from
    [malloc], stores the value and [NULL] in it, and makes it the last block
    of the list by one store into the slot that ended the list; that slot is
    the head slot exactly when the list was empty, so the head slot keeps
    its content when the list was not empty. *)
Theorem append_indirect_links_tail malloc fuel v start m p ns new :
  returns_unused malloc →
  load m start = Done p → is_list (heap m) p ns →
  malloc (mallocs m) (heap m) = Some new → (length ns < fuel)%nat →
  ∃ m',
    append_indirect malloc fuel v start m = Done m'
    ∧ store (with_entry new v m) (tail_slot start ns) (Some new) = Done m'
    ∧ heap m !! new = None
    ∧ mallocs m' = S (mallocs m)
    ∧ heap m' !! new = Some (ListEntry v NULL)
    ∧ (∃ p', load m' start = Done p'
             ∧ is_list (heap m') p' (ns ++ [(new, v)]))
    ∧ (tail_slot start ns = start ↔ ns = [])
    ∧ (ns = [] → load m' start = Done (Some new))
    ∧ (ns ≠ [] → load m' start = Done p).
Proof.
  intros Hu Hp Hl Hm Hf.
  destruct (append_appended malloc Hu Indirect fuel v start m p ns new)
    as (m' & Happ & A); [done..|].
  exists m'. split; [done|]. split.
  { by rewrite <- (append_store malloc Hu Indirect fuel v start m p ns new). }
  destruct A as [Au Ae An (_ & _ & _ & p' & Hp' & Hl') Ao At Ah Am As].
  assert (tail_slot start ns = start ↔ ns = []) as Hiff.
  { split; [|by intros ->]. intros Heq. rewrite Heq, Hp in Ae.
    injection Ae as ->. by destruct ns as [|[l u] ns]; [|destruct Hl]. }
  repeat split; try done; try apply Hiff.
  - by exists p'.
  - intros ->. simpl in Hl'. destruct Hl' as [-> _]. done.
  - intros Hne. destruct ns as [|[l u] ns]; [done|].
    destruct Hl as [-> _]. destruct Hl' as [-> _]. done.
Qed.

Lemma append_indirect_links_tail_witness :
  ∃ m',
    append_indirect malloc_fresh 3 1 Head two_nodes = Done m'
    ∧ heap m' !! 3%positive = Some (ListEntry 1 NULL)
    ∧ load m' Head = Done (Some 1%positive).
Proof.
  destruct (append_indirect_links_tail malloc_fresh 3 1 Head two_nodes
              (Some 1%positive) [(1%positive, 3); (2%positive, 2)] 3%positive
              malloc_fresh_unused)
    as (m' & Happ & _ & _ & _ & Hnew & _ & _ & _ & Hhead).
  - reflexivity.
  - exact two_nodes_list.
  - vm_compute. reflexivity.
  - simpl. lia.
  - exists m'. split; [exact Happ|]. split; [exact Hnew|].
    apply Hhead. discriminate.
Defined.

(** C3: [append_direct] is the algorithm of the design.  Whatever the
    allocator and the state, the function returns a state [m'] for some fuel
    exactly when the algorithm (read the head slot into current, previous
    none; walk, previous following current, until current is none; write the
    new reference into the head slot when previous is still none and into
    [previous.next] otherwise) leads from [m] to [m'], and then it returns
    [m'] for every larger fuel. *)
Theorem append_direct_follows_spec malloc v start m m' :
  (append_direct_spec malloc v start m m' ↔
   ∃ fuel, append_direct malloc fuel v start m = Done m')
  ∧ (∀ fuel fuel', append_direct malloc fuel v start m = Done m' →
       (fuel ≤ fuel')%nat → append_direct malloc fuel' v start m = Done m').
Proof.
  split; [split|].
  - intros [n Hn]%append_direct_complete. exists (S n). apply Hn. lia.
  - intros [fuel Hf]. by eapply append_direct_sound.
  - intros fuel fuel' Hf Hle.
    unfold append_direct in *.
    destruct (load m start) as [direct| |]; cbn in *; [|done|done].
    destruct (new_entry malloc v m) as [[new m1]| |]; cbn in *; [|done|done].
    destruct (direct_loop fuel m1 direct NULL) as [[prev n]| |] eqn:Hloop;
      cbn in Hf; [|done|done].
    by rewrite (direct_loop_mono _ _ _ _ _ _ _ Hloop Hle).
Qed.

(** C4: for any sequence of values, the empty one and the singletons
    included, appending its values in order to an empty head and then running
    the loop of [main] that visits the list prints, and so collects, exactly
    the sequence. *)
Theorem build_then_collect malloc st fuel it (vs : list Z) (m : state) :
  returns_unused malloc → never_null malloc →
  head m = NULL → (length vs < fuel)%nat →
  ∃ m1 ns m2,
    append_all malloc st fuel vs Head m = Done m1
    ∧ is_list (heap m1) (head m1) ns
    ∧ ns.*2 = vs
    ∧ consume_loop fuel true it (head m1) m1 = Done m2
    ∧ stdout m2 = stdout m ++ node_lines it ns
    ∧ line_values (node_lines it ns) = vs.
Proof.
  intros Hu Ht Hh Hf.
  destruct (append_all_list malloc Hu Ht st fuel vs Head m NULL [])
    as (m1 & ns & Hb & B); [by rewrite <- Hh|done|simpl; lia|].
  destruct B as [Bv [p' [[= <-] Hl]] _ _ _ _ Bs]. simpl in Hl.
  eexists m1, ns, _. split; [done|]. split; [done|]. split; [done|].
  split.
  - apply consume_loop_list; [done|].
    apply (f_equal length) in Bv. rewrite length_fmap in Bv. lia.
  - simpl. rewrite Bs. split; [done|]. by rewrite line_values_node_lines.
Qed.

Lemma build_then_collect_witness :
  ∃ m1 ns m2,
    append_all malloc_fresh Indirect 4 [3; 2; 1] Head empty_state = Done m1
    ∧ is_list (heap m1) (head m1) ns
    ∧ ns.*2 = [3; 2; 1]
    ∧ consume_loop 4 true 0 (head m1) m1 = Done m2
    ∧ stdout m2 = stdout empty_state ++ node_lines 0 ns
    ∧ line_values (node_lines 0 ns) = [3; 2; 1].
Proof.
  apply (build_then_collect malloc_fresh Indirect 4 0 [3; 2; 1] empty_state
           malloc_fresh_unused malloc_fresh_total).
  - reflexivity.
  - simpl. lia.
Defined.

(** C5: an append of either strategy on a slot that holds a list leaves
    every live block other than the last block of the list as it was, keeps
    the value of the last block and writes only its [next], keeps every
    block of the list at its place in the chain, and changes the head
    variable only when it is the very slot that ended an empty list. *)
Theorem append_frame malloc st fuel v start m p ns new :
  returns_unused malloc →
  load m start = Done p → is_list (heap m) p ns →
  malloc (mallocs m) (heap m) = Some new → (length ns < fuel)%nat →
  ∃ m',
    append malloc st fuel v start m = Done m'
    ∧ (∀ l e, heap m !! l = Some e → tail_slot start ns ≠ Next l →
              heap m' !! l = Some e)
    ∧ (∀ i l u, ns !! i = Some (l, u) → (S i < length ns)%nat →
                heap m' !! l = heap m !! l)
    ∧ (∀ l u, last ns = Some (l, u) →
              heap m !! l = Some (ListEntry u NULL)
              ∧ heap m' !! l = Some (ListEntry u (Some new)))
    ∧ (∃ p', load m' start = Done p'
             ∧ is_list (heap m') p' (ns ++ [(new, v)]))
    ∧ (ns ≠ [] → head m' = head m)
    ∧ (start ≠ Head → head m' = head m)
    ∧ (ns = [] → start = Head → head m' = Some new).
Proof.
  intros Hu Hp Hl Hm Hf.
  destruct (append_appended malloc Hu st fuel v start m p ns new)
    as (m' & Happ & A); [done..|].
  exists m'. split; [done|].
  destruct A as [Au Ae An (_ & _ & _ & p' & Hp' & Hl') Ao At Ah Am As].
  assert (∀ l e, heap m !! l = Some e → tail_slot start ns ≠ Next l →
                 heap m' !! l = Some e) as Hlive.
  { intros l e He Hne. rewrite Ao; [done| |done]. congruence. }
  split; [done|]. split; [|split; [|split; [|split; [|split]]]].
  - intros i l u Hi Hlt.
    destruct (is_list_lookup _ _ _ _ _ _ Hl Hi) as (nx & Hh & _).
    rewrite Hh. apply Hlive; [done|]. unfold tail_slot.
    destruct (last ns) as [[l' u']|] eqn:Hlast;
      [|by apply last_None in Hlast; subst ns].
    intros [= ->]. rewrite last_lookup in Hlast.
    pose proof (is_list_index_inj _ _ _ _ _ _ _ _ Hl Hi Hlast). lia.
  - intros l u Hlast. destruct (At l) as (u' & H1 & H2).
    { unfold tail_slot. by rewrite Hlast. }
    pose proof (is_list_last _ _ _ _ _ Hl Hlast) as Hlu.
    rewrite Hlu in H1. injection H1 as <-. done.
  - by exists p'.
  - intros Hne. rewrite Ah. unfold tail_slot.
    destruct (last ns) as [[l u]|] eqn:Hlast; [done|].
    by apply last_None in Hlast.
  - intros Hne. rewrite Ah. unfold tail_slot.
    destruct (last ns) as [[l u]|]; [done|]. by destruct start.
  - intros -> ->. by rewrite Ah.
Qed.

Lemma append_frame_witness :
  ∃ m',
    append malloc_fresh Direct 3 1 Head two_nodes = Done m'
    ∧ heap m' !! 1%positive = heap two_nodes !! 1%positive
    ∧ heap m' !! 2%positive = Some (ListEntry 2 (Some 3%positive))
    ∧ head m' = head two_nodes.
Proof.
  destruct (append_frame malloc_fresh Direct 3 1 Head two_nodes
              (Some 1%positive) [(1%positive, 3); (2%positive, 2)] 3%positive
              malloc_fresh_unused)
    as (m' & Happ & _ & Hmid & Hlast & _ & Hhead & _).
  - reflexivity.
  - exact two_nodes_list.
  - vm_compute. reflexivity.
  - simpl. lia.
  - exists m'. split; [exact Happ|]. split.
    + apply (Hmid 0%nat 1%positive 3); [reflexivity|simpl; lia].
    + split; [apply (Hlast 2%positive 2); reflexivity|].
      apply Hhead. discriminate.
Defined.

(** C6: an append of either strategy on a state that satisfies the chain
    invariant returns (its loop stops after finitely many passes) and the
    state it returns satisfies the invariant again. *)
Theorem append_preserves_chain_invariant malloc st v m new :
  returns_unused malloc →
  chain_invariant m → malloc (mallocs m) (heap m) = Some new →
  ∃ n, ∀ fuel, (n < fuel)%nat →
    ∃ m', append malloc st fuel v Head m = Done m' ∧ chain_invariant m'.
Proof.
  intros Hu [ns Hl]%chain_invariant_is_list Hm. exists (length ns).
  intros fuel Hf.
  destruct (append_appended malloc Hu st fuel v Head m (head m) ns new)
    as (m' & Happ & A); [done..|].
  exists m'. split; [done|].
  destruct (app_list _ _ _ _ _ _ A) as (_ & _ & _ & p' & [= <-] & Hl').
  by eapply is_list_chain_invariant.
Qed.

Lemma append_preserves_chain_invariant_witness :
  chain_invariant two_nodes
  ∧ ∃ n, ∀ fuel, (n < fuel)%nat →
      ∃ m', append malloc_fresh Indirect fuel 1 Head two_nodes = Done m'
            ∧ chain_invariant m'.
Proof.
  pose proof (is_list_chain_invariant two_nodes _ two_nodes_list) as Hinv.
  split; [exact Hinv|].
  apply (append_preserves_chain_invariant malloc_fresh Indirect 1 two_nodes
           3%positive malloc_fresh_unused Hinv).
  vm_compute. reflexivity.
Defined.

(** C7: with fewer than two arguments after the program name [main] prints
    the usage texts and returns -1; with an iteration count that [atoi]
    makes less than 1 it prints the error text and returns -1; on both paths
    the head, the heap and the count of [malloc] calls are untouched, so no
    list is built.  In every other invocation [main] returns 0. *)
Theorem main_exit_status malloc atoi char_signed st fuel argv m :
  ((length argv < 3)%nat →
     main malloc atoi char_signed st fuel argv m =
     Done (-1, State (head m) (heap m) (mallocs m) (stdout m ++ usage)))
  ∧ ((3 ≤ length argv)%nat →
     ∃ arg1 arg2,
       argv !! 1%nat = Some arg1 ∧ argv !! 2%nat = Some arg2
       ∧ (atoi arg2 < 1 →
            main malloc atoi char_signed st fuel argv m =
            Done (-1, State (head m) (heap m) (mallocs m)
                            (stdout m ++ [bad_count])))
       ∧ (1 ≤ atoi arg2 → returns_unused malloc → never_null malloc →
          (strlen arg1 < fuel)%nat →
            ∃ m', main malloc atoi char_signed st fuel argv m = Done (0, m')
                  ∧ heap m' = heap m)).
Proof.
  split.
  - intros Hlen. unfold main.
    destruct (Z.ltb_spec (Z.of_nat (length argv)) 3) as [_|?]; [done|lia].
  - intros Hlen.
    destruct argv as [|arg0 [|arg1 [|arg2 rest]]]; simpl in Hlen; try lia.
    exists arg1, arg2. split; [done|]. split; [done|]. unfold main.
    destruct (Z.ltb_spec (Z.of_nat (length (arg0 :: arg1 :: arg2 :: rest))) 3)
      as [Hlt|_]; [simpl in Hlt; lia|].
    cbn [lookup list_lookup]. split.
    + intros Hlow. by destruct (Z.ltb_spec (atoi arg2) 1) as [_|?]; [|lia].
    + intros Hhigh Hu Ht Hf.
      destruct (Z.ltb_spec (atoi arg2) 1) as [?|_]; [lia|].
      match goal with
      | |- context [main_loop _ _ _ _ ?o ?n ?i ?s ?m0] =>
          destruct (main_loop_run malloc char_signed Hu Ht st fuel o n i s m0 Hf)
            as (m' & -> & Hh & _)
      end.
      exists m'. split; [done|]. rewrite Hh. by destruct (negb _).
Qed.

Lemma main_exit_status_witness :
  main malloc_fresh atoi_dec true append_initial 4 ["prog"; "321"]%string
       empty_state
  = Done (-1, State NULL ∅ O usage)
  ∧ main malloc_fresh atoi_dec true append_initial 4
         ["prog"; "321"; "0"]%string empty_state
    = Done (-1, State NULL ∅ O [bad_count])
  ∧ ∃ m', main malloc_fresh atoi_dec true append_initial 4
               ["prog"; "321"; "2"]%string empty_state = Done (0, m').
Proof.
  split; [|split].
  - apply (main_exit_status malloc_fresh atoi_dec true append_initial 4
             ["prog"; "321"]%string empty_state). simpl. lia.
  - destruct (main_exit_status malloc_fresh atoi_dec true append_initial 4
                ["prog"; "321"; "0"]%string empty_state) as [_ H].
    destruct H as (arg1 & arg2 & _ & [= <-] & H & _); [simpl; lia|].
    apply H. vm_compute. reflexivity.
  - destruct (main_exit_status malloc_fresh atoi_dec true append_initial 4
                ["prog"; "321"; "2"]%string empty_state) as [_ H].
    destruct H as (arg1 & arg2 & [= <-] & [= <-] & _ & H); [simpl; lia|].
    destruct H as (m' & Hm' & _).
    + vm_compute. discriminate.
    + exact malloc_fresh_unused.
    + exact malloc_fresh_total.
    + simpl. lia.
    + by exists m'.
Defined.

Lemma N_of_ascii_bound c : (N_of_ascii c < 256)%N.
Proof. by destruct c as [[] [] [] [] [] [] [] []]. Qed.

(** C8: the inner loop of [main] appends, for each character [c] of its
    first argument and in order, the integer [c - 48] (48 is the code of
    ['0']) and nothing is checked: the ten digit characters give 0 to 9, any
    other character gives some integer from -176 to 207 (['a'] gives 49, a
    space gives -16), and these are the values of the list that is built. *)
Theorem appended_value_is_char_minus_zero malloc char_signed st fuel s m :
  build_loop malloc char_signed st fuel (strlen s) O s m =
    append_all malloc st fuel
      ((fun c => char_val char_signed c - 48) <$> c_chars s) Head m
  ∧ (∀ d, (d ≤ 9)%nat →
          digit_of char_signed (ascii_of_nat (48 + d)) = Z.of_nat d)
  ∧ (∀ c, -176 ≤ digit_of char_signed c ≤ 207)
  ∧ digit_of char_signed "a"%char = 49
  ∧ digit_of char_signed " "%char = -16
  ∧ (returns_unused malloc → never_null malloc → (strlen s < fuel)%nat →
     ∃ b ns,
       build_loop malloc char_signed st fuel (strlen s) O s (set_head NULL m)
         = Done b
       ∧ is_list (heap b) (head b) ns
       ∧ ns.*2 = ((fun c => char_val char_signed c - 48) <$> c_chars s)).
Proof.
  assert (∀ c, digit_of char_signed c = char_val char_signed c - 48) as Hd.
  { intros c. unfold digit_of. by destruct char_signed. }
  assert (digit_of char_signed = fun c => char_val char_signed c - 48) as Hfun.
  { clear -Hd. unfold digit_of in *.
    replace (char_val char_signed "0") with 48 by (by destruct char_signed).
    done. }
  split; [|split; [|split; [|split; [|split]]]].
  - rewrite build_loop_append_all. by rewrite Hfun.
  - intros d Hle. do 10 (destruct d as [|d]; [by destruct char_signed|]). lia.
  - intros c. rewrite Hd. unfold char_val.
    pose proof (N_of_ascii_bound c).
    destruct char_signed; simpl; [destruct (Z.leb_spec 128 (Z.of_N (N_of_ascii c)))|]; lia.
  - by destruct char_signed.
  - by destruct char_signed.
  - intros Hu Ht Hf.
    destruct (cycle_run malloc char_signed Hu Ht st fuel true O s m Hf)
      as (b & ns & Hb & Hl & Hv & _).
    exists b, ns. rewrite <- Hfun. done.
Qed.

Lemma appended_value_is_char_minus_zero_witness :
  ∃ b ns,
    build_loop malloc_fresh true Direct 4 3 O "3a " (set_head NULL two_nodes)
      = Done b
    ∧ is_list (heap b) (head b) ns
    ∧ ns.*2 = [3; 49; -16].
Proof.
  destruct (appended_value_is_char_minus_zero malloc_fresh true Direct 4 "3a "
              two_nodes) as (_ & _ & _ & _ & _ & H).
  apply H.
  - exact malloc_fresh_unused.
  - exact malloc_fresh_total.
  - simpl. lia.
Defined.

(** C9: in a run of [K] cycles on the string [s], every cycle [i] starts
    with the heap of the beginning (no block of an earlier cycle is left)
    and after [i * strlen s] calls of [malloc].  The cycle is the reset of
    the head to [NULL], the build and then the loop that visits and frees:
    the build makes, out of blocks that were not live and without touching
    any other block, a list of [strlen s] blocks whose values are those of
    the characters of [s]; the loop prints this list when [output] is set
    and frees it, so that the cycle hands on the same heap, [strlen s] more
    calls of [malloc] and the lines of this one list.  The whole run makes
    [K * strlen s] calls of [malloc], prints the values of [s] once per
    cycle and ends with the heap of the beginning. *)
Theorem cycles_are_independent malloc char_signed st fuel output s m K i :
  returns_unused malloc → never_null malloc →
  (strlen s < fuel)%nat → (1 ≤ K)%nat → (i < K)%nat →
  ∃ m_i b ns m_next m_end,
    main_loop malloc char_signed st fuel output i O s m = Done m_i
    ∧ heap m_i = heap m
    ∧ head (set_head NULL m_i) = NULL
    ∧ build_loop malloc char_signed st fuel (strlen s) O s (set_head NULL m_i)
      = Done b
    ∧ is_list (heap b) (head b) ns
    ∧ ns.*2 = (digit_of char_signed <$> c_chars s)
    ∧ length ns = strlen s
    ∧ (∀ l, l ∈ ns.*1 → heap m_i !! l = None)
    ∧ cycle malloc char_signed st fuel output i s m_i = Done m_next
    ∧ heap m_next = heap m
    ∧ main_loop malloc char_signed st fuel output (K - S i) (S i) s m_next
      = Done m_end
    ∧ main_loop malloc char_signed st fuel output K O s m = Done m_end
    ∧ consume_loop fuel output i (head b) b = Done m_next
    ∧ m_next = State (first_block ns) (heap m_i) (mallocs m_i + strlen s)
                     (stdout m_i ++ if output then node_lines i ns else [])
    ∧ (∀ l, l ∉ ns.*1 → heap b !! l = heap m_i !! l)
    ∧ mallocs m_i = (mallocs m + i * strlen s)%nat
    ∧ line_values (stdout m_i) =
      line_values (stdout m) ++
      (if output
       then List.concat (replicate i (digit_of char_signed <$> c_chars s))
       else [])
    ∧ heap m_end = heap m
    ∧ mallocs m_end = (mallocs m + K * strlen s)%nat
    ∧ line_values (stdout m_end) =
      line_values (stdout m) ++
      (if output
       then List.concat (replicate K (digit_of char_signed <$> c_chars s))
       else []).
Proof.
  intros Hu Ht Hf _ Hi.
  destruct (main_loop_run malloc char_signed Hu Ht st fuel output i O s m Hf)
    as (m_i & Hrun_i & Hheap_i & Hmal_i & Hout_i).
  destruct (cycle_run malloc char_signed Hu Ht st fuel output i s m_i Hf)
    as (b & ns & Hb & Hl & Hv & Hnew & Hkeep & Hc).
  set (m_next := State (first_block ns) (heap m_i) (mallocs m_i + strlen s)
                       (stdout m_i ++ if output then node_lines i ns else []))
    in *.
  destruct (main_loop_run malloc char_signed Hu Ht st fuel output (K - S i)
              (S i) s m_next Hf)
    as (m_end & Hrun_end & _).
  assert (main_loop malloc char_signed st fuel output K O s m = Done m_end)
    as Hrun.
  { replace K with (i + S (K - S i))%nat at 1 by lia.
    rewrite main_loop_split, Hrun_i. cbn [mbind outcome_bind].
    change (0 + i)%nat with i. cbn [main_loop]. by rewrite Hc. }
  destruct (main_loop_run malloc char_signed Hu Ht st fuel output K O s m Hf)
    as (m_end' & Hrun' & Hheap_end & Hmal_end & Hout_end).
  rewrite Hrun in Hrun'. injection Hrun' as <-.
  assert (consume_loop fuel output i (head b) b = Done m_next) as Hcons.
  { rewrite <- Hc. unfold cycle. by rewrite Hb. }
  exists m_i, b, ns, m_next, m_end.
  repeat split; try done.
  apply (f_equal length) in Hv.
  by rewrite !length_fmap, length_c_chars in Hv.
Qed.

Lemma cycles_are_independent_witness :
  ∃ m_i b ns m_next m_end,
    main_loop malloc_fresh true Indirect 4 true 1 O "321" empty_state = Done m_i
    ∧ heap m_i = ∅
    ∧ build_loop malloc_fresh true Indirect 4 3 O "321" (set_head NULL m_i)
      = Done b
    ∧ is_list (heap b) (head b) ns
    ∧ ns.*2 = [3; 2; 1]
    ∧ cycle malloc_fresh true Indirect 4 true 1 "321" m_i = Done m_next
    ∧ heap m_next = ∅
    ∧ consume_loop 4 true 1 (head b) b = Done m_next
    ∧ stdout m_next = stdout m_i ++ node_lines 1 ns
    ∧ mallocs m_i = 3%nat
    ∧ mallocs m_next = 6%nat
    ∧ main_loop malloc_fresh true Indirect 4 true 2 O "321" empty_state
      = Done m_end
    ∧ line_values (stdout m_end) = [3; 2; 1; 3; 2; 1].
Proof.
  destruct (cycles_are_independent malloc_fresh true Indirect 4 true "321"
              empty_state 2 1 malloc_fresh_unused malloc_fresh_total)
    as (m_i & b & ns & m_next & m_end & H1 & H2 & _ & H3 & H4 & H5 & _ & _
        & H6 & H7 & _ & H8 & H9 & H10 & _ & H11 & _ & _ & _ & H12);
    [simpl; lia|lia|lia|].
  exists m_i, b, ns, m_next, m_end.
  split; [exact H1|]. split; [exact H2|]. split; [exact H3|].
  split; [exact H4|]. split; [exact H5|]. split; [exact H6|].
  split; [exact H7|]. split; [exact H9|].
  split; [rewrite H10; reflexivity|]. split; [exact H11|].
  split; [rewrite H10, H11; reflexivity|]. split; [exact H8|exact H12].
Defined.

(** C10: on a slot that holds a list of [n] blocks, the loop of
    [append_indirect] and the loop of [append_direct] both stop after
    exactly [n] passes: with fuel for [n + 1] tests they return, with less
    they do not, and so both functions return whenever [malloc] gave a
    block. *)
Theorem append_loops_terminate malloc fuel v start m p ns new :
  returns_unused malloc →
  load m start = Done p → is_list (heap m) p ns →
  malloc (mallocs m) (heap m) = Some new →
  ((length ns < fuel)%nat →
     indirect_loop fuel (with_entry new v m) start
       = Done (tail_slot start ns, length ns)
     ∧ direct_loop fuel (with_entry new v m) p NULL
       = Done (tail_block NULL ns, length ns)
     ∧ ∃ m', append_indirect malloc fuel v start m = Done m'
             ∧ append_direct malloc fuel v start m = Done m')
  ∧ ((fuel ≤ length ns)%nat →
     indirect_loop fuel (with_entry new v m) start = OutOfFuel
     ∧ direct_loop fuel (with_entry new v m) p NULL = OutOfFuel
     ∧ append_indirect malloc fuel v start m = OutOfFuel
     ∧ append_direct malloc fuel v start m = OutOfFuel).
Proof.
  intros Hu Hp Hl Hm. pose proof (Hu _ _ _ Hm) as Hnew.
  assert (load (with_entry new v m) start = Done p) as Hp1
    by (by apply load_with_entry).
  assert (is_list (heap (with_entry new v m)) p ns) as Hl1
    by (by apply is_list_insert_fresh).
  split.
  - intros Hf. split; [by eapply indirect_loop_list|].
    split; [by apply direct_loop_list|].
    destruct (append_appended malloc Hu Indirect fuel v start m p ns new)
      as (m' & Happ & _); [done..|].
    exists m'. split; [done|].
    change (append malloc Direct fuel v start m = Done m').
    rewrite (append_store malloc Hu Direct fuel v start m p ns new) by done.
    by rewrite <- (append_store malloc Hu Indirect fuel v start m p ns new).
  - intros Hf.
    pose proof (indirect_loop_short fuel _ start p ns Hp1 Hl1 Hf) as Hi.
    pose proof (direct_loop_short fuel _ p NULL ns Hl1 Hf) as Hd.
    split; [done|]. split; [done|]. split.
    + unfold append_indirect. rewrite (new_entry_Some malloc v m new Hm). cbn.
      by rewrite Hi.
    + unfold append_direct. rewrite Hp. cbn.
      rewrite (new_entry_Some malloc v m new Hm). cbn. by rewrite Hd.
Qed.

Lemma append_loops_terminate_witness :
  indirect_loop 3 (with_entry 3%positive 1 two_nodes) Head
    = Done (Next 2%positive, 2%nat)
  ∧ direct_loop 3 (with_entry 3%positive 1 two_nodes) (Some 1%positive) NULL
    = Done (Some 2%positive, 2%nat)
  ∧ indirect_loop 2 (with_entry 3%positive 1 two_nodes) Head = OutOfFuel.
Proof.
  destruct (append_loops_terminate malloc_fresh 3 1 Head two_nodes
              (Some 1%positive) [(1%positive, 3); (2%positive, 2)] 3%positive
              malloc_fresh_unused) as [Hok _].
  { reflexivity. } { exact two_nodes_list. } { vm_compute. reflexivity. }
  destruct Hok as (H1 & H2 & _); [simpl; lia|].
  destruct (append_loops_terminate malloc_fresh 2 1 Head two_nodes
              (Some 1%positive) [(1%positive, 3); (2%positive, 2)] 3%positive
              malloc_fresh_unused) as [_ Hshort].
  { reflexivity. } { exact two_nodes_list. } { vm_compute. reflexivity. }
  destruct Hshort as (H3 & _); [simpl; lia|].
  split; [exact H1|]. split; [exact H2|exact H3].
Defined.

(** * Further properties of the code *)

(** ** The loop that visits and frees *)

Lemma size_free_all h p ns :
  is_list h p ns → (size (free_all ns.*1 h) + length ns)%nat = size h.
Proof.
  revert h p. induction ns as [|[l v] ns IH]; intros h p Hl; [simpl; lia|].
  destruct Hl as (-> & nx & Hh & Hl).
  pose proof (is_list_head_once _ _ _ _ _ Hh Hl) as Honce.
  change (free_all ((l, v) :: ns).*1 h) with (free_all ns.*1 (delete l h)).
  pose proof (IH (delete l h) nx (is_list_delete_other _ _ _ _ Honce Hl)) as Hs.
  rewrite map_size_delete_Some in Hs by eauto.
  assert (size h ≠ 0)%nat.
  { intros Hz. apply map_size_empty_inv in Hz. subst h.
    by rewrite lookup_empty in Hh. }
  simpl. lia.
Qed.

(** The second loop of [main] (lines 153-163), run on a pointer that holds
    a list of [n] blocks, returns after freeing exactly these [n] blocks:
    none of them is live afterwards, every other block is as it was, and the
    heap has [n] blocks less.  It prints one line per block when [output] is
    set and nothing otherwise, calls [malloc] never, and leaves the head
    variable as it was. *)
Theorem consume_loop_frees_the_list fuel output it m p ns :
  is_list (heap m) p ns → (length ns < fuel)%nat →
  ∃ m',
    consume_loop fuel output it p m = Done m'
    ∧ (∀ l, l ∈ ns.*1 → heap m' !! l = None)
    ∧ (∀ l, l ∉ ns.*1 → heap m' !! l = heap m !! l)
    ∧ (size (heap m') + length ns)%nat = size (heap m)
    ∧ stdout m' = stdout m ++ (if output then node_lines it ns else [])
    ∧ length (node_lines it ns) = length ns
    ∧ mallocs m' = mallocs m
    ∧ head m' = head m.
Proof.
  intros Hl Hf. eexists. split; [by apply consume_loop_list|]. simpl.
  split; [|split; [|split; [|split; [|split]]]]; try done.
  - intros l Hin. rewrite lookup_free_all. by rewrite decide_True.
  - intros l Hout. rewrite lookup_free_all. by rewrite decide_False.
  - by eapply size_free_all.
  - clear. induction ns as [|[l v] ns IH]; simpl; [done|by f_equal].
Qed.

Lemma consume_loop_frees_the_list_witness :
  ∃ m',
    consume_loop 3 true 0 (Some 1%positive) two_nodes = Done m'
    ∧ heap m' !! 1%positive = None
    ∧ heap m' !! 2%positive = None
    ∧ (size (heap m') + 2)%nat = size (heap two_nodes)
    ∧ head m' = Some 1%positive.
Proof.
  destruct (consume_loop_frees_the_list 3 true 0 two_nodes (Some 1%positive)
              [(1%positive, 3); (2%positive, 2)])
    as (m' & Hrun & Hfreed & _ & Hsize & _ & _ & _ & Hhead).
  - exact two_nodes_list.
  - simpl. lia.
  - exists m'. split; [exact Hrun|].
    split; [apply Hfreed; simpl; apply list_elem_of_here|].
    split; [apply Hfreed; simpl; apply list_elem_of_further, list_elem_of_here|].
    split; [exact Hsize|exact Hhead].
Defined.

(** ** One call, any slot *)

(** On a slot that holds a list, with fuel above the length of the list,
    [append_direct] (lines 67-93) and [append_indirect] (lines 36-53) return
    the same result, whether [malloc] gives a block or [NULL]. *)
Theorem append_direct_eq_indirect malloc fuel v start m p ns :
  returns_unused malloc →
  load m start = Done p → is_list (heap m) p ns → (length ns < fuel)%nat →
  append_direct malloc fuel v start m = append_indirect malloc fuel v start m.
Proof.
  intros Hu Hp Hl Hf.
  destruct (malloc (mallocs m) (heap m)) as [new|] eqn:Hm.
  - rewrite (append_direct_store malloc Hu fuel v start m p ns new) by done.
    by rewrite (append_indirect_store malloc Hu fuel v start m p ns new).
  - unfold append_direct, append_indirect, new_entry. rewrite Hp, Hm. done.
Qed.

Lemma append_direct_eq_indirect_witness :
  append_direct malloc_fresh 3 1 Head two_nodes
  = append_indirect malloc_fresh 3 1 Head two_nodes
  ∧ append_direct malloc_null 3 1 Head two_nodes
    = append_indirect malloc_null 3 1 Head two_nodes.
Proof.
  split.
  - apply (append_direct_eq_indirect malloc_fresh 3 1 Head two_nodes
             (Some 1%positive) [(1%positive, 3); (2%positive, 2)]
             malloc_fresh_unused).
    + reflexivity.
    + exact two_nodes_list.
    + simpl. lia.
  - apply (append_direct_eq_indirect malloc_null 3 1 Head two_nodes
             (Some 1%positive) [(1%positive, 3); (2%positive, 2)]).
    + intros n h l H. discriminate H.
    + reflexivity.
    + exact two_nodes_list.
    + simpl. lia.
Defined.

(** Both functions take any [list_entry_t**]: called on the address of the
    [next] field of a block [l] of the list, they link the new block behind
    the last block of the whole list, exactly as a call on the head does,
    and the loop only walks the blocks behind [l]. *)
Theorem append_through_inner_slot malloc st fuel v m ns1 l u ns2 new :
  returns_unused malloc →
  is_list (heap m) (head m) (ns1 ++ (l, u) :: ns2) →
  malloc (mallocs m) (heap m) = Some new → (length ns2 < fuel)%nat →
  ∃ m',
    append malloc st fuel v (Next l) m = Done m'
    ∧ is_list (heap m') (head m') (ns1 ++ (l, u) :: ns2 ++ [(new, v)])
    ∧ ∀ st' fuel', (length (ns1 ++ (l, u) :: ns2) < fuel')%nat →
        append malloc st' fuel' v Head m = Done m'.
Proof.
  intros Hu Hl Hm Hf.
  assert ((ns1 ++ (l, u) :: ns2) !! length ns1 = Some (l, u)) as Hi
    by (by rewrite list_lookup_middle).
  destruct (is_list_lookup _ _ _ _ _ _ Hl Hi) as (nx & Hh & Hd).
  assert (drop (S (length ns1)) (ns1 ++ (l, u) :: ns2) = ns2) as Hdrop.
  { rewrite (cons_middle (l, u) ns1 ns2), app_assoc.
    apply drop_app_length'. rewrite length_app. simpl. lia. }
  rewrite Hdrop in Hd.
  assert (load m (Next l) = Done nx) as Hload
    by apply (load_Next m l (ListEntry u nx) Hh).
  assert (tail_slot Head (ns1 ++ (l, u) :: ns2) = tail_slot (Next l) ns2) as Ht.
  { unfold tail_slot at 1. rewrite last_app_cons.
    change (match last ((l, u) :: ns2) with
            | Some (l', _) => Next l' | None => Head end)
      with (tail_slot Head ((l, u) :: ns2)).
    apply tail_slot_cons. }
  destruct (append_appended malloc Hu Indirect 
              (S (length (ns1 ++ (l, u) :: ns2))) v Head m (head m)
              (ns1 ++ (l, u) :: ns2) new)
    as (m' & Happ & A); [done|done|done|lia|].
  rewrite (append_store malloc Hu Indirect _ v Head m (head m)
             (ns1 ++ (l, u) :: ns2) new) in Happ by (done || lia).
  exists m'. split; [|split].
  - rewrite (append_store malloc Hu st fuel v (Next l) m nx ns2 new) by done.
    by rewrite <- Ht.
  - destruct (app_list _ _ _ _ _ _ A) as (_ & _ & _ & p' & [= <-] & Hl').
    by rewrite <- app_assoc in Hl'.
  - intros st' fuel' Hf'.
    by rewrite (append_store malloc Hu st' fuel' v Head m (head m)
                  (ns1 ++ (l, u) :: ns2) new).
Qed.

Lemma append_through_inner_slot_witness :
  ∃ m',
    append malloc_fresh Direct 1 1 (Next 2%positive) two_nodes = Done m'
    ∧ is_list (heap m') (head m')
        [(1%positive, 3); (2%positive, 2); (3%positive, 1)]
    ∧ append malloc_fresh Indirect 3 1 Head two_nodes = Done m'.
Proof.
  destruct (append_through_inner_slot malloc_fresh Direct 1 1 two_nodes
              [(1%positive, 3)] 2%positive 2 [] 3%positive malloc_fresh_unused)
    as (m' & Hrun & Hlist & Hhead).
  - exact two_nodes_list.
  - vm_compute. reflexivity.
  - simpl. lia.
  - exists m'. split; [exact Hrun|]. split; [exact Hlist|].
    apply Hhead. simpl. lia.
Defined.

(** ** Chains without an end *)

Lemma indirect_loop_endless fuel m s l0 :
  load m s = Done (Some l0) →
  (∀ l, rtc (points_to (heap m)) l0 l → ∃ l', points_to (heap m) l l') →
  indirect_loop fuel m s = OutOfFuel.
Proof.
  revert s l0. induction fuel as [|fuel IH]; intros s l0 Hs Hc; [done|].
  cbn [indirect_loop]. rewrite Hs. cbn.
  destruct (Hc l0 (rtc_refl _ _)) as (l' & e & He & Hn).
  rewrite (IH (Next l0) l'); [done| |].
  - by rewrite (load_Next m l0 e He), Hn.
  - intros l Hr. apply Hc. eapply rtc_l; [|done]. by exists e.
Qed.

Lemma direct_loop_endless fuel m l0 prev :
  (∀ l, rtc (points_to (heap m)) l0 l → ∃ l', points_to (heap m) l l') →
  direct_loop fuel m (Some l0) prev = OutOfFuel.
Proof.
  revert l0 prev. induction fuel as [|fuel IH]; intros l0 prev Hc; [done|].
  cbn [direct_loop].
  destruct (Hc l0 (rtc_refl _ _)) as (l' & e & He & Hn).
  rewrite He, Hn. rewrite (IH l'); [done|].
  intros l Hr. apply Hc. eapply rtc_l; [|done]. by exists e.
Qed.

(** A block that was not live and is written now is not on the chain. *)
Lemma endless_insert_unused h l0 new e :
  h !! new = None →
  (∀ l, rtc (points_to h) l0 l → ∃ l', points_to h l l') →
  ∀ l, rtc (points_to (<[new := e]> h)) l0 l →
       ∃ l', points_to (<[new := e]> h) l l'.
Proof.
  intros Hnew Hc.
  assert (∀ l l', points_to h l l' → points_to (<[new := e]> h) l l') as Hup.
  { intros l l' (e' & He' & Hn). exists e'. split; [|done].
    rewrite lookup_insert_ne; [done|congruence]. }
  assert (∀ l, rtc (points_to (<[new := e]> h)) l0 l → rtc (points_to h) l0 l)
    as Hback.
  { intros l Hr. revert Hc. induction Hr as [x|x y z Hxy Hyz IH]; intros Hc;
      [apply rtc_refl|].
    destruct (Hc x (rtc_refl _ _)) as (x' & ex & Hex & _).
    assert (points_to h x y) as Hstep.
    { destruct Hxy as (e' & He' & Hn).
      rewrite lookup_insert_ne in He' by congruence. by exists e'. }
    eapply rtc_l; [done|]. apply IH. intros l Hl. apply Hc.
    by eapply rtc_l. }
  intros l Hr. destruct (Hc l (Hback l Hr)) as [l' Hl']. eauto.
Qed.

(** When the chain that hangs at the slot never reaches [NULL] (it runs into
    a cycle), the loop of either function (lines 47-50 and 80-84) never
    stops: the call uses up whatever fuel it gets. *)
Theorem append_endless_never_returns malloc st v start m p new :
  returns_unused malloc →
  load m start = Done p → endless (heap m) p →
  malloc (mallocs m) (heap m) = Some new →
  ∀ fuel, append malloc st fuel v start m = OutOfFuel.
Proof.
  intros Hu Hp (l0 & -> & Hc) Hm fuel.
  pose proof (Hu _ _ _ Hm) as Hnew.
  pose proof (endless_insert_unused _ l0 new (ListEntry v NULL) Hnew Hc) as Hc1.
  destruct st; simpl.
  - unfold append_indirect. rewrite (new_entry_Some malloc v m new Hm). cbn.
    rewrite (indirect_loop_endless fuel (with_entry new v m) start l0);
      [done|by apply load_with_entry|done].
  - unfold append_direct. rewrite Hp. cbn.
    rewrite (new_entry_Some malloc v m new Hm). cbn.
    by rewrite (direct_loop_endless fuel (with_entry new v m) l0 NULL).
Qed.

Lemma self_loop_endless : endless (heap self_loop) (head self_loop).
Proof.
  exists 1%positive. split; [done|].
  assert (∀ x l, rtc (points_to (heap self_loop)) x l → x = 1%positive →
                 l = 1%positive) as Hone.
  { intros x l Hr. induction Hr as [x|x y z Hxy _ IH]; [done|].
    intros ->. apply IH. destruct Hxy as (e & He & Hn).
    assert (e = ListEntry 0 (Some 1%positive)) as -> by (by injection He).
    by injection Hn. }
  intros l Hr. rewrite (Hone _ _ Hr eq_refl).
  exists 1%positive. by exists (ListEntry 0 (Some 1%positive)).
Qed.

Lemma append_endless_never_returns_witness :
  endless (heap self_loop) (head self_loop)
  ∧ append malloc_fresh Indirect 1000 5 Head self_loop = OutOfFuel
  ∧ append malloc_fresh Direct 1000 5 Head self_loop = OutOfFuel.
Proof.
  split; [exact self_loop_endless|]. split.
  - apply (append_endless_never_returns malloc_fresh Indirect 5 Head self_loop
             (Some 1%positive) 2%positive malloc_fresh_unused).
    + reflexivity.
    + exact self_loop_endless.
    + vm_compute. reflexivity.
  - apply (append_endless_never_returns malloc_fresh Direct 5 Head self_loop
             (Some 1%positive) 2%positive malloc_fresh_unused).
    + reflexivity.
    + exact self_loop_endless.
    + vm_compute. reflexivity.
Defined.

(** ** Appending to a list that is already there *)

(** Appending the values [vs], with either strategy, to any slot that holds
    a list keeps the blocks of that list where they are and puts behind them
    one new block per value, in the order of [vs]; the new blocks were not
    live before, [malloc] is called once per value and nothing is printed. *)
Theorem append_all_extends malloc st fuel vs start m p ns :
  returns_unused malloc → never_null malloc →
  load m start = Done p → is_list (heap m) p ns →
  (length ns + length vs ≤ fuel)%nat →
  ∃ m' p' ns',
    append_all malloc st fuel vs start m = Done m'
    ∧ load m' start = Done p'
    ∧ is_list (heap m') p' (ns ++ ns')
    ∧ ns'.*2 = vs
    ∧ (∀ l, l ∈ ns'.*1 → heap m !! l = None)
    ∧ mallocs m' = (mallocs m + length vs)%nat
    ∧ size (heap m') = (size (heap m) + length vs)%nat
    ∧ stdout m' = stdout m.
Proof.
  intros Hu Ht. revert m p ns.
  induction vs as [|v vs IH]; intros m p ns Hp Hl Hf.
  - exists m, p, []. rewrite app_nil_r. simpl.
    repeat split; try done; try lia. by intros l ?%elem_of_nil.
  - destruct (Ht (mallocs m) (heap m)) as [new Hm].
    pose proof (Hu _ _ _ Hm) as Hnew.
    assert (length ns < fuel)%nat as Hlt by (simpl in Hf; lia).
    pose proof (append_store malloc Hu st fuel v start m p ns new Hp Hl Hm Hlt)
      as Hstore.
    destruct (store_appended v start m p ns new Hp Hl Hnew) as (m1 & Hm1 & A).
    destruct (app_list _ _ _ _ _ _ A) as (_ & _ & _ & p1 & Hp1 & Hl1).
    destruct (IH m1 p1 (ns ++ [(new, v)]) Hp1 Hl1)
      as (m' & p' & ns' & Hrun & Hp' & Hl' & Hv & Hun & Hmal & Hsize & Hout).
    { rewrite length_app. simpl in *. lia. }
    assert (size (heap m1) = S (size (heap m))) as Hsize1.
    { clear -Hm1 Hnew. unfold tail_slot in Hm1.
      assert (size (<[new := ListEntry v NULL]> (heap m)) = S (size (heap m)))
        as Hins by (by apply map_size_insert_None).
      destruct (last ns) as [[l u]|]; [|destruct start as [|l]]; simpl in Hm1.
      - destruct (<[new := ListEntry v NULL]> (heap m) !! l) as [e|] eqn:He;
          [|done].
        injection Hm1 as <-. simpl. rewrite map_size_insert_Some by eauto. done.
      - by injection Hm1 as <-.
      - destruct (<[new := ListEntry v NULL]> (heap m) !! l) as [e|] eqn:He;
          [|done].
        injection Hm1 as <-. simpl. rewrite map_size_insert_Some by eauto. done. }
    exists m', p', ((new, v) :: ns').
    split; [cbn [append_all]; by rewrite Hstore, Hm1|].
    split; [done|]. split; [by rewrite <- app_assoc in Hl'|].
    split; [simpl; by f_equal|].
    split; [|split; [|split]].
    + intros l [->|Hin]%elem_of_cons; [done|].
      specialize (Hun l Hin).
      destruct (decide (l = new)) as [->|Hne].
      { by rewrite (app_entry _ _ _ _ _ _ A) in Hun. }
      destruct (decide (tail_slot start ns = Next l)) as [Htl|Htl].
      { destruct (app_tail _ _ _ _ _ _ A l Htl) as (u & _ & Hu'). congruence. }
      by rewrite <- (app_others _ _ _ _ _ _ A l Hne Htl).
    + rewrite Hmal, (app_mallocs _ _ _ _ _ _ A). simpl. lia.
    + rewrite Hsize, Hsize1. simpl. lia.
    + by rewrite Hout, (app_stdout _ _ _ _ _ _ A).
Qed.

Lemma append_all_extends_witness :
  ∃ m' ns',
    append_all malloc_fresh Direct 4 [1; 0] Head two_nodes = Done m'
    ∧ is_list (heap m') (head m')
        ([(1%positive, 3); (2%positive, 2)] ++ ns')
    ∧ ns'.*2 = [1; 0]
    ∧ size (heap m') = 4%nat.
Proof.
  destruct (append_all_extends malloc_fresh Direct 4 [1; 0] Head two_nodes
              (Some 1%positive) [(1%positive, 3); (2%positive, 2)]
              malloc_fresh_unused malloc_fresh_total)
    as (m' & p' & ns' & Hrun & Hp' & Hl' & Hv & _ & _ & Hsize & _).
  - reflexivity.
  - exact two_nodes_list.
  - simpl. lia.
  - exists m', ns'. split; [exact Hrun|].
    split; [simpl in Hp'; injection Hp' as <-; exact Hl'|].
    split; [exact Hv|exact Hsize].
Defined.

(** ** What [main] prints, allocates and leaves behind *)

Lemma length_node_lines it ns : length (node_lines it ns) = length ns.
Proof. induction ns as [|[l v] ns IH]; simpl; [done|by f_equal]. Qed.

Lemma line_iterations_app out1 out2 :
  line_iterations (out1 ++ out2) = line_iterations out1 ++ line_iterations out2.
Proof.
  induction out1 as [|[t|it l v nx] out1 IH]; simpl; [done|done|by f_equal].
Qed.

Lemma line_iterations_node_lines it ns :
  line_iterations (node_lines it ns) = replicate (length ns) it.
Proof. induction ns as [|[l v] ns IH]; simpl; [done|by f_equal]. Qed.

Lemma line_values_cycles_lines it (nss : list (list (loc * Z))) vs :
  Forall (fun ns => ns.*2 = vs) nss →
  line_values (cycles_lines it nss) = List.concat (replicate (length nss) vs).
Proof.
  intros Hall. revert it. induction Hall as [|ns nss Hv _ IH]; intros it; [done|].
  simpl. by rewrite line_values_app, line_values_node_lines, Hv, IH.
Qed.

Lemma line_iterations_cycles_lines it nss k :
  Forall (fun ns => length ns = k) nss →
  line_iterations (cycles_lines it nss) =
  List.concat ((fun i => replicate k i) <$> seq it (length nss)).
Proof.
  intros Hall. revert it. induction Hall as [|ns nss Hk _ IH]; intros it; [done|].
  simpl. by rewrite line_iterations_app, line_iterations_node_lines, Hk, IH.
Qed.

Lemma length_cycles_lines it nss k :
  Forall (fun ns => length ns = k) nss →
  length (cycles_lines it nss) = (length nss * k)%nat.
Proof.
  intros Hall. revert it. induction Hall as [|ns nss Hk _ IH]; intros it; [done|].
  simpl. by rewrite length_app, length_node_lines, Hk, IH.
Qed.

(** The cycles of [main], with the lists they build. *)
Lemma main_loop_trace malloc char_signed st fuel output n it s m :
  returns_unused malloc → never_null malloc → (strlen s < fuel)%nat →
  ∃ m' nss,
    main_loop malloc char_signed st fuel output n it s m = Done m'
    ∧ length nss = n
    ∧ Forall (fun ns => ns.*2 = (digit_of char_signed <$> c_chars s)) nss
    ∧ heap m' = heap m
    ∧ mallocs m' = (mallocs m + n * strlen s)%nat
    ∧ stdout m' = stdout m ++ (if output then cycles_lines it nss else []).
Proof.
  intros Hu Ht Hf. revert it m. induction n as [|n IH]; intros it m.
  - exists m, []. repeat split; [done|simpl; lia|].
    destruct output; by rewrite app_nil_r.
  - destruct (cycle_run malloc char_signed Hu Ht st fuel output it s m Hf)
      as (b & ns & _ & _ & Hv & _ & _ & Hc).
    cbn [main_loop]. rewrite Hc. cbn.
    edestruct IH as (m' & nss & -> & Hlen & Hall & Hh & Hm & Ho).
    exists m', (ns :: nss). split; [done|]. simpl in *.
    split; [by rewrite Hlen|]. split; [by constructor|]. split; [done|].
    split; [lia|]. rewrite Ho. destruct output; simpl.
    + by rewrite <- app_assoc.
    + by rewrite !app_nil_r.
Qed.

Lemma values_length char_signed s (ns : list (loc * Z)) :
  ns.*2 = (digit_of char_signed <$> c_chars s) → length ns = strlen s.
Proof.
  intros Hv. apply (f_equal length) in Hv.
  by rewrite !length_fmap, length_c_chars in Hv.
Qed.

(** Called with exactly two arguments after the program name, a count [K] of
    at least 1 and an allocator that has memory, [main] (lines 104-167)
    returns 0 after printing the line that names the strategy and then, for
    each cycle 0 to [K - 1] in turn, one line per character of the string:
    the lines of a cycle carry its number, the values of the characters in
    order, and block addresses that chain up to [NULL].  It calls [malloc]
    [K * strlen] times and every block it got is freed again. *)
Theorem main_prints_each_cycle malloc atoi char_signed st fuel argv m arg1 arg2 :
  returns_unused malloc → never_null malloc →
  length argv = 3%nat → argv !! 1%nat = Some arg1 → argv !! 2%nat = Some arg2 →
  1 ≤ atoi arg2 → (strlen arg1 < fuel)%nat →
  ∃ m' nss,
    main malloc atoi char_signed st fuel argv m = Done (0, m')
    ∧ length nss = Z.to_nat (atoi arg2)
    ∧ Forall (fun ns => ns.*2 = (digit_of char_signed <$> c_chars arg1)) nss
    ∧ stdout m' = stdout m ++ banner st :: cycles_lines 0 nss
    ∧ line_values (cycles_lines 0 nss) =
      List.concat (replicate (Z.to_nat (atoi arg2))
                             (digit_of char_signed <$> c_chars arg1))
    ∧ line_iterations (cycles_lines 0 nss) =
      List.concat ((fun i => replicate (strlen arg1) i)
                     <$> seq 0 (Z.to_nat (atoi arg2)))
    ∧ length (cycles_lines 0 nss) = (Z.to_nat (atoi arg2) * strlen arg1)%nat
    ∧ mallocs m' = (mallocs m + Z.to_nat (atoi arg2) * strlen arg1)%nat
    ∧ heap m' = heap m.
Proof.
  intros Hu Ht Hlen H1 H2 Hk Hf. unfold main. rewrite Hlen, H1, H2.
  change (Z.of_nat 3 <? 3) with false. cbn match.
  destruct (Z.ltb_spec (atoi arg2) 1) as [?|_]; [lia|].
  change (negb (3 <? Z.of_nat 3)) with true. cbn match.
  destruct (main_loop_trace malloc char_signed st fuel true
              (Z.to_nat (atoi arg2)) O arg1 (print (banner st) m) Hu Ht Hf)
    as (m' & nss & -> & Hn & Hall & Hh & Hm & Ho).
  assert (Forall (fun ns => length ns = strlen arg1) nss) as Hlens.
  { eapply Forall_impl; [exact Hall|]. intros ns. apply values_length. }
  exists m', nss. cbn. split; [done|]. split; [done|]. split; [done|].
  split; [simpl in Ho; by rewrite Ho, <- app_assoc|].
  split; [by rewrite (line_values_cycles_lines _ _ _ Hall), Hn|].
  split; [by rewrite (line_iterations_cycles_lines _ _ _ Hlens), Hn|].
  split; [by rewrite (length_cycles_lines _ _ _ Hlens), Hn|]. done.
Qed.

Lemma main_prints_each_cycle_witness :
  ∃ m' nss,
    main malloc_fresh atoi_dec true Direct 4 ["prog"; "321"; "2"]%string
         empty_state = Done (0, m')
    ∧ stdout m' = banner Direct :: cycles_lines 0 nss
    ∧ line_values (cycles_lines 0 nss) = [3; 2; 1; 3; 2; 1]
    ∧ line_iterations (cycles_lines 0 nss) = [0; 0; 0; 1; 1; 1]%nat
    ∧ mallocs m' = 6%nat.
Proof.
  destruct (main_prints_each_cycle malloc_fresh atoi_dec true Direct 4
              ["prog"; "321"; "2"]%string empty_state "321" "2"
              malloc_fresh_unused malloc_fresh_total)
    as (m' & nss & Hrun & _ & _ & Hout & Hv & Hi & _ & Hm & _).
  - reflexivity.
  - reflexivity.
  - reflexivity.
  - vm_compute. discriminate.
  - simpl. lia.
  - exists m', nss. split; [exact Hrun|]. split; [exact Hout|].
    split; [exact Hv|]. split; [exact Hi|exact Hm].
Defined.

(** Called with a third argument after the program name, [main] prints
    nothing at all (lines 129-140 and 156-159), yet runs the same cycles:
    it returns 0, has called [malloc] [K * strlen] times and has freed every
    block it got. *)
Theorem main_silent malloc atoi char_signed st fuel argv m arg1 arg2 :
  returns_unused malloc → never_null malloc →
  (3 < length argv)%nat → argv !! 1%nat = Some arg1 → argv !! 2%nat = Some arg2 →
  1 ≤ atoi arg2 → (strlen arg1 < fuel)%nat →
  ∃ m',
    main malloc atoi char_signed st fuel argv m = Done (0, m')
    ∧ stdout m' = stdout m
    ∧ mallocs m' = (mallocs m + Z.to_nat (atoi arg2) * strlen arg1)%nat
    ∧ heap m' = heap m.
Proof.
  intros Hu Ht Hlen H1 H2 Hk Hf. unfold main. rewrite H1, H2.
  destruct (Z.ltb_spec (Z.of_nat (length argv)) 3) as [?|_]; [lia|].
  destruct (Z.ltb_spec (atoi arg2) 1) as [?|_]; [lia|].
  destruct (Z.ltb_spec 3 (Z.of_nat (length argv))) as [_|?]; [|lia].
  cbn [negb].
  destruct (main_loop_trace malloc char_signed st fuel false
              (Z.to_nat (atoi arg2)) O arg1 m Hu Ht Hf)
    as (m' & nss & -> & _ & _ & Hh & Hm & Ho).
  exists m'. cbn. rewrite app_nil_r in Ho. done.
Qed.

Lemma main_silent_witness :
  ∃ m',
    main malloc_fresh atoi_dec true Indirect 4
         ["prog"; "321"; "2"; "quiet"]%string empty_state = Done (0, m')
    ∧ stdout m' = []
    ∧ mallocs m' = 6%nat
    ∧ heap m' = ∅.
Proof.
  apply (main_silent malloc_fresh atoi_dec true Indirect 4
           ["prog"; "321"; "2"; "quiet"]%string empty_state "321" "2"
           malloc_fresh_unused malloc_fresh_total).
  - simpl. lia.
  - reflexivity.
  - reflexivity.
  - vm_compute. discriminate.
  - simpl. lia.
Defined.

(** ** The edges: no characters, no memory *)

Lemma main_loop_no_chars malloc char_signed st fuel output n it s m :
  strlen s = O → (0 < fuel)%nat →
  main_loop malloc char_signed st fuel output n it s m =
  Done (match n with O => m | S _ => set_head NULL m end).
Proof.
  intros Hs Hf. revert it m. induction n as [|n IH]; intros it m; [done|].
  cbn [main_loop]. unfold cycle. rewrite Hs. cbn.
  destruct fuel as [|fuel]; [lia|]. cbn. rewrite IH. by destruct n.
Qed.

(** When [strlen] of the string is 0, [main] (lines 142-164) makes no
    append and visits nothing: whatever the allocator, even one that has no
    memory, it returns 0 with the heap untouched, no call of [malloc], the
    head [NULL] and at most the line that names the strategy printed. *)
Theorem main_no_chars malloc atoi char_signed st fuel argv m arg1 arg2 :
  (3 ≤ length argv)%nat → argv !! 1%nat = Some arg1 → argv !! 2%nat = Some arg2 →
  strlen arg1 = O → 1 ≤ atoi arg2 → (0 < fuel)%nat →
  main malloc atoi char_signed st fuel argv m =
  Done (0, State NULL (heap m) (mallocs m)
                 (stdout m ++ if decide (length argv = 3%nat)
                              then [banner st] else [])).
Proof.
  intros Hlen H1 H2 Hs Hk Hf. unfold main. rewrite H1, H2.
  destruct (Z.ltb_spec (Z.of_nat (length argv)) 3) as [?|_]; [lia|].
  destruct (Z.ltb_spec (atoi arg2) 1) as [?|_]; [lia|].
  rewrite main_loop_no_chars by done.
  destruct (Z.to_nat (atoi arg2)) as [|n] eqn:Hn; [lia|]. cbn.
  destruct (Z.ltb_spec 3 (Z.of_nat (length argv))) as [?|?];
    destruct (decide (length argv = 3%nat)) as [?|?]; try lia; cbn.
  - by rewrite app_nil_r.
  - done.
Qed.

Lemma main_no_chars_witness :
  main malloc_null atoi_dec false Direct 1
       ["prog"%string; EmptyString; "5"%string] empty_state
  = Done (0, State NULL ∅ 0 [banner Direct]).
Proof.
  apply (main_no_chars malloc_null atoi_dec false Direct 1
           ["prog"%string; EmptyString; "5"%string] empty_state EmptyString "5").
  - simpl. lia.
  - reflexivity.
  - reflexivity.
  - reflexivity.
  - vm_compute. discriminate.
  - lia.
Defined.

(** Neither append function tests what [malloc] returned (lines 43-45 and
    76-78).  So when the string has a character, the count is at least 1
    and the first call of [malloc] returns [NULL], [main] writes through
    [NULL] in its first append, for either strategy and before any loop
    runs. *)
Theorem main_faults_without_memory malloc atoi char_signed st fuel argv m
  arg1 arg2 :
  (3 ≤ length argv)%nat → argv !! 1%nat = Some arg1 → argv !! 2%nat = Some arg2 →
  1 ≤ atoi arg2 → (0 < strlen arg1)%nat →
  malloc (mallocs m) (heap m) = None →
  main malloc atoi char_signed st fuel argv m = Fault.
Proof.
  intros Hlen H1 H2 Hk Hs Hm. unfold main. rewrite H1, H2.
  destruct (Z.ltb_spec (Z.of_nat (length argv)) 3) as [?|_]; [lia|].
  destruct (Z.ltb_spec (atoi arg2) 1) as [?|_]; [lia|].
  destruct (Z.to_nat (atoi arg2)) as [|n] eqn:Hn; [lia|].
  destruct arg1 as [|c s]; [simpl in Hs; lia|]. simpl in Hs.
  cbn [main_loop]. unfold cycle. cbn [strlen].
  destruct (Ascii.eqb c zero); [lia|]. cbn [build_loop String.get].
  rewrite append_malloc_null; [done|]. by destruct (negb _).
Qed.

Lemma main_faults_without_memory_witness :
  main malloc_null atoi_dec true Indirect 4 ["prog"; "321"; "1"]%string
       empty_state = Fault.
Proof.
  apply (main_faults_without_memory malloc_null atoi_dec true Indirect 4
           ["prog"; "321"; "1"]%string empty_state "321" "1").
  - simpl. lia.
  - reflexivity.
  - reflexivity.
  - vm_compute. discriminate.
  - simpl. lia.
  - reflexivity.
Defined.

(** After a cycle on a string with at least one character (lines 144-163)
    the head variable still holds the address of the first block of the list
    that the cycle built, and this block has been freed.  The block [l] was
    not live before the cycle, the build got it from [malloc] and made it
    the first block of the list, holding the value of the first character;
    the loop that visits and frees starts at it, and when the cycle returns
    the head is still [l] while [l] is not live any more: the variable
    dangles until the next cycle sets it to [NULL] (line 144). *)
Theorem cycle_leaves_head_dangling malloc char_signed st fuel output it s m :
  returns_unused malloc → never_null malloc →
  (strlen s < fuel)%nat → (0 < strlen s)%nat →
  ∃ m' l b v ns,
    build_loop malloc char_signed st fuel (strlen s) O s (set_head NULL m)
      = Done b
    ∧ is_list (heap b) (head b) ((l, v) :: ns)
    ∧ ((l, v) :: ns).*2 = (digit_of char_signed <$> c_chars s)
    ∧ head b = Some l
    ∧ heap m !! l = None
    ∧ heap b !! l = Some (ListEntry v (first_block ns))
    ∧ consume_loop fuel output it (head b) b = Done m'
    ∧ cycle malloc char_signed st fuel output it s m = Done m'
    ∧ head m' = Some l
    ∧ heap m' !! l = None
    ∧ heap m' = heap m.
Proof.
  intros Hu Ht Hf Hs.
  destruct (cycle_run malloc char_signed Hu Ht st fuel output it s m Hf)
    as (b & ns & Hb & Hl & Hv & Hnew & _ & Hc).
  pose proof (values_length _ _ _ Hv) as Hlen.
  destruct ns as [|[l v] ns]; [simpl in Hlen; lia|].
  assert (heap m !! l = None) as Hfree
    by (apply Hnew; simpl; apply list_elem_of_here).
  pose proof Hl as (Hhead & nx & Hblock & Hrest).
  rewrite (is_list_first _ _ _ Hrest) in Hblock.
  eexists _, l, b, v, ns. split; [exact Hb|]. split; [exact Hl|].
  split; [exact Hv|]. split; [exact Hhead|]. split; [exact Hfree|].
  split; [exact Hblock|]. split.
  { rewrite <- Hc. unfold cycle. by rewrite Hb. }
  split; [exact Hc|]. simpl. done.
Qed.

Lemma cycle_leaves_head_dangling_witness :
  ∃ m' b ns,
    build_loop malloc_fresh true Indirect 4 3 O "321" (set_head NULL empty_state)
      = Done b
    ∧ is_list (heap b) (head b) ((1%positive, 3) :: ns)
    ∧ heap b !! 1%positive = Some (ListEntry 3 (first_block ns))
    ∧ cycle malloc_fresh true Indirect 4 false 0 "321" empty_state = Done m'
    ∧ head m' = Some 1%positive
    ∧ heap m' !! 1%positive = None.
Proof.
  destruct (cycle_leaves_head_dangling malloc_fresh true Indirect 4 false 0
              "321" empty_state malloc_fresh_unused malloc_fresh_total)
    as (m' & l & b & v & ns & Hb & Hl & Hv & Hhead & _ & Hblock & _ & Hrun
        & Hhead' & Hfreed & _).
  - simpl. lia.
  - simpl. lia.
  - assert (head b = Some 1%positive) as Hone.
    { pose proof Hb as Hb'. vm_compute in Hb'. by injection Hb' as <-. }
    rewrite Hone in Hhead. injection Hhead as <-.
    injection Hv as -> _.
    exists m', b, ns. split; [exact Hb|]. split; [exact Hl|].
    split; [exact Hblock|]. split; [exact Hrun|].
    split; [exact Hhead'|exact Hfreed].
Defined.
